(** * lockfree-rcu-metrics: the three-slot rotator and the ReverseRcu collector

    Sources modelled:
    - [src/simple_rcu/reverse_rcu.h]: [ReverseRcu<T>], [ReverseRcu<T>::Local]
      and [ReverseRcu<T>::Snapshot];
    - [src/three_state_rcu_test.cc]: the two tests of [ThreeStateRcu<int>].

    The headers [local_3state_rcu.h] and [three_state_rcu.h], which define the
    rotator itself, are not part of the sources; the rotator is modelled from
    the specification (section 4.1) and checked against the tests.

    Calls of different threads are interleaved as whole calls of the rotator
    and of the collector; atomics and memory ordering are not modelled. *)

From stdpp Require Import gmap gmultiset list fin_maps strings.
From Stdlib Require Import ZArith Lia Morphisms Ascii.
From AAC_tactics Require Import AAC.

Local Open Scope Z_scope.

(** ** Storage: three cells addressed by an index *)

(** The identity of a slot.  Two references are equal exactly when they
    denote the same [Index]. *)
Inductive Index : Type := Slot0 | Slot1 | Slot2.

Definition Index_eqb (i j : Index) : bool :=
  match i, j with
  | Slot0, Slot0 | Slot1, Slot1 | Slot2, Slot2 => true
  | _, _ => false
  end.

(** The role tag of the hidden slot. *)
Inductive RelayTag : Type := Free | Staged.

Definition is_Free (t : RelayTag) : bool :=
  match t with Free => true | Staged => false end.

Record Slots (T : Type) : Type := mkSlots { cell0 : T; cell1 : T; cell2 : T }.
Arguments mkSlots {T} _ _ _.
Arguments cell0 {T} _.
Arguments cell1 {T} _.
Arguments cell2 {T} _.

Definition get_cell {T} (s : Slots T) (i : Index) : T :=
  match i with
  | Slot0 => cell0 s
  | Slot1 => cell1 s
  | Slot2 => cell2 s
  end.

Definition set_cell {T} (s : Slots T) (i : Index) (v : T) : Slots T :=
  match i with
  | Slot0 => mkSlots v (cell1 s) (cell2 s)
  | Slot1 => mkSlots (cell0 s) v (cell2 s)
  | Slot2 => mkSlots (cell0 s) (cell1 s) v
  end.

(** ** The rotator *)

(** Modelled from the spec: the class templates [Local3StateRcu<T>] and
    [ThreeStateRcu<T>] (headers [local_3state_rcu.h], [three_state_rcu.h]) are
    missing from the sources.  Section 3 gives the data: three value slots,
    the roles Write, Read and Relay, and a tag [Free]/[Staged] on the Relay
    slot; section 9 asks for index indirection over a fixed array of three
    cells, which is what the record holds. *)
Record Rotator (T : Type) : Type := mkRotator {
  values : Slots T;
  update_index : Index;   (* the Write slot, returned by [Update()] *)
  read_index : Index;     (* the Read slot, returned by [Read()] *)
  relay_index : Index;    (* the hidden slot *)
  relay : RelayTag
}.
Arguments mkRotator {T} _ _ _ _ _.
Arguments values {T} _.
Arguments update_index {T} _.
Arguments read_index {T} _.
Arguments relay_index {T} _.
Arguments relay {T} _.

Section RotatorOps.
Context {T : Type}.

(** Modelled from the spec: construction, "slots are constructed with the
    type's default value"; the initial tag is a parameter because the two
    classes differ in it (see [Local3StateRcu_new], [ThreeStateRcu.new]). *)
Definition Rotator_new (d : T) (t : RelayTag) : Rotator T :=
  mkRotator (mkSlots d d d) Slot0 Slot1 Slot2 t.

(** Modelled from the spec: [write_slot()], in the code [Update()]. *)
Definition Update (r : Rotator T) : T := get_cell (values r) (update_index r).

(** Modelled from the spec: [read_slot()], in the code [Read()]. *)
Definition Read (r : Rotator T) : T := get_cell (values r) (read_index r).

(** Assignment through the reference returned by [Update()]. *)
Definition set_Update (r : Rotator T) (v : T) : Rotator T :=
  mkRotator (set_cell (values r) (update_index r) v)
            (update_index r) (read_index r) (relay_index r) (relay r).

(** Assignment through the reference returned by [Read()]. *)
Definition set_Read (r : Rotator T) (v : T) : Rotator T :=
  mkRotator (set_cell (values r) (read_index r) v)
            (update_index r) (read_index r) (relay_index r) (relay r).

(** The identity swap Write <-> Relay, leaving the Relay [Staged]. *)
Definition publish (r : Rotator T) : Rotator T :=
  mkRotator (values r) (relay_index r) (read_index r) (update_index r) Staged.

(** The identity swap Read <-> Relay, leaving the Relay [Free]. *)
Definition consume (r : Rotator T) : Rotator T :=
  mkRotator (values r) (update_index r) (relay_index r) (read_index r) Free.

(** Modelled from the spec: [try_publish()], "if the Relay slot is Free, swaps
    the identities of Write and Relay, marks Relay Staged, and returns true.
    If Relay is already Staged, the call is a no-op and returns false". *)
Definition TryUpdate (r : Rotator T) : bool * Rotator T :=
  match relay r with
  | Free => (true, publish r)
  | Staged => (false, r)
  end.

(** Modelled from the spec: [try_consume()], "if Relay is Staged, swaps the
    identities of Read and Relay, [the old Read slot] becomes the new Relay,
    marked Free, and returns true.  If Relay is Free, no-op, returns false".
    [Snapshot::~Snapshot] calls it as [TryRead()], the test as
    [TriggerRead()]. *)
Definition TryRead (r : Rotator T) : bool * Rotator T :=
  match relay r with
  | Staged => (true, consume r)
  | Free => (false, r)
  end.

(** Modelled from the spec: [force_make_readable()], in the code
    [ForceUpdate()]: "unconditionally marks the Relay slot Staged regardless
    of prior state", which section 4.2 calls a forced publish, a "commit of
    whatever is currently in the Write slot": the publish swap without the
    [Free] guard. *)
Definition ForceUpdate (r : Rotator T) : Rotator T := publish r.

(** The other reading of the same sentence, the tag alone being set.  With it
    nothing a session writes would ever come to stand behind [Update()]
    (lemma [mark_only_never_delivers]), against the comment of
    [ReverseRcu::Collect], "Reads values from all registered Local
    instances"; the collector is therefore not modelled with it. *)
Definition ForceUpdate_mark (r : Rotator T) : Rotator T :=
  mkRotator (values r) (update_index r) (read_index r) (relay_index r) Staged.

(** [Local3StateRcu<T>]: the comment in [Local::Local], "Allow Snapshot to
    TryRead() from the start", next to the call of [ForceUpdate()] fits the
    spec's initial state, "Relay is Free". *)
Definition Local3StateRcu_new (d : T) : Rotator T := Rotator_new d Free.

(** The three roles denote three different cells. *)
Definition roles_distinct (r : Rotator T) : bool :=
  negb (Index_eqb (update_index r) (read_index r))
  && negb (Index_eqb (update_index r) (relay_index r))
  && negb (Index_eqb (read_index r) (relay_index r)).
End RotatorOps.

(** ** [ThreeStateRcu<int>] as the tests in [three_state_rcu_test.cc] fix it *)

Module ThreeStateRcu.

(** Modelled from the spec: [ThreeStateRcu<T>] (header [three_state_rcu.h])
    is missing; slots, roles and swaps are the spec's.  Two points are taken
    from the tests, which are the code where they differ from the spec's
    words: a fresh instance accepts a [TriggerRead()] (test
    [AlternatingUpdatesAndReads]), so its Relay is [Staged]. *)
Definition new (d : Z) : Rotator Z := Rotator_new d Staged.

(** Modelled from the spec: as above; in test [UpdateAndRead] the first
    [TriggerUpdate()] returns false ("Read hasn't advanced yet") and still
    hands the written 42 over, so the swap is done whatever the tag and the
    result tells whether the reader had consumed the previous value. *)
Definition TriggerUpdate (r : Rotator Z) : bool * Rotator Z :=
  (is_Free (relay r), publish r).

(** Modelled from the spec: [try_consume()], as [TryRead]. *)
Definition TriggerRead (r : Rotator Z) : bool * Rotator Z := TryRead r.

End ThreeStateRcu.

(** An implementation of the interface the tests drive. *)
Record RcuImpl : Type := mkImpl {
  impl_new : Rotator Z;
  impl_TriggerUpdate : Rotator Z -> bool * Rotator Z;
  impl_TriggerRead : Rotator Z -> bool * Rotator Z
}.

(** The rotator the tests were written for. *)
Definition tested_impl : RcuImpl :=
  mkImpl (ThreeStateRcu.new 0) ThreeStateRcu.TriggerUpdate ThreeStateRcu.TriggerRead.

(** The rotator of section 4.1 read word for word: Relay initially [Free],
    [try_publish] guarded by the tag. *)
Definition literal_impl : RcuImpl :=
  mkImpl (Local3StateRcu_new 0) TryUpdate TryRead.

Section Tests.
Variable I : RcuImpl.

(** [EXPECT_NE(&rcu.Update(), &rcu.Read())] *)
Definition expect_ne_refs (r : Rotator Z) : bool :=
  negb (Index_eqb (update_index r) (read_index r)).

(** [TEST(ThreeStateRcuTest, UpdateAndRead)]: the outcome of every
    [EXPECT_*], in program order. *)
Definition UpdateAndRead : list bool :=
  let rcu := impl_new I in
  let e1 := expect_ne_refs rcu in
  let e2 := Update rcu =? 0 in
  let e3 := Read rcu =? 0 in
  let rcu := set_Update rcu 42 in
  let '(b, rcu) := impl_TriggerUpdate I rcu in
  let e4 := negb b in
  let e5 := expect_ne_refs rcu in
  let e6 := Update rcu =? 0 in
  let e7 := Read rcu =? 0 in
  let '(b, rcu) := impl_TriggerRead I rcu in
  let e8 := b in
  let e9 := expect_ne_refs rcu in
  let e10 := Read rcu =? 42 in
  [e1; e2; e3; e4; e5; e6; e7; e8; e9; e10].

(** One iteration of the loop of [AlternatingUpdatesAndReads]; the state is
    the rotator, the result adds the seven expectations of the iteration. *)
Definition alternating_body (i : Z) (rcu : Rotator Z) : list bool * Rotator Z :=
  let rcu := set_Update rcu i in
  let '(b, rcu) := impl_TriggerUpdate I rcu in
  let e1 := b in
  let e2 := Update rcu =? - (i - 2) in
  let e3 := Read rcu =? - (i - 1) in
  let '(b, rcu) := impl_TriggerRead I rcu in
  let e4 := b in
  let e5 := Read rcu =? i in
  let '(b, rcu) := impl_TriggerRead I rcu in
  let e6 := negb b in
  let e7 := Read rcu =? i in
  let rcu := set_Read rcu (- i) in
  ([e1; e2; e3; e4; e5; e6; e7], rcu).

Fixpoint alternating_loop (ks : list Z) (rcu : Rotator Z) : list bool * Rotator Z :=
  match ks with
  | [] => ([], rcu)
  | i :: ks' =>
      let '(es, rcu) := alternating_body i rcu in
      let '(es', rcu) := alternating_loop ks' rcu in
      (es ++ es', rcu)
  end.

(** What [Update()] reads right after the [TriggerUpdate()] of each iteration. *)
Fixpoint alternating_updates (ks : list Z) (rcu : Rotator Z) : list Z :=
  match ks with
  | [] => []
  | i :: ks' =>
      Update (snd (impl_TriggerUpdate I (set_Update rcu i)))
      :: alternating_updates ks' (snd (alternating_body i rcu))
  end.

(** The state in which the loop is entered. *)
Definition alternating_start : Rotator Z :=
  let rcu := impl_new I in
  let rcu := set_Read rcu 1 in
  snd (impl_TriggerRead I rcu).

(** [TEST(ThreeStateRcuTest, AlternatingUpdatesAndReads)], [i] from 1 to 10. *)
Definition AlternatingUpdatesAndReads : list bool :=
  fst (alternating_loop (map Z.of_nat (seq 1 10)) alternating_start).

Definition passes (es : list bool) : bool := forallb (fun e => e) es.
End Tests.

(** The four rotators one gets from the two open choices, the initial tag and
    whether a publish is refused while the Relay is [Staged]. *)
Definition family_impl (t : RelayTag) (guarded : bool) : RcuImpl :=
  mkImpl (Rotator_new 0 t)
         (if guarded then TryUpdate else ThreeStateRcu.TriggerUpdate)
         TryRead.

(** Reachable states of a rotator: any sequence of publishes (guarded,
    unguarded, forced in either reading), consumes and assignments through the
    two references, from either initial state. *)
Inductive RotatorOp (T : Type) : Type :=
  | OpTryUpdate
  | OpTryRead
  | OpForceUpdate
  | OpForceMark
  | OpSetUpdate (v : T)
  | OpSetRead (v : T).
Arguments OpTryUpdate {T}.
Arguments OpTryRead {T}.
Arguments OpForceUpdate {T}.
Arguments OpForceMark {T}.
Arguments OpSetUpdate {T} _.
Arguments OpSetRead {T} _.

Definition rotator_step {T} (r : Rotator T) (op : RotatorOp T) : Rotator T :=
  match op with
  | OpTryUpdate => snd (TryUpdate r)
  | OpTryRead => snd (TryRead r)
  | OpForceUpdate => ForceUpdate r
  | OpForceMark => ForceUpdate_mark r
  | OpSetUpdate v => set_Update r v
  | OpSetRead v => set_Read r v
  end.

Definition rotator_run {T} (r : Rotator T) (ops : list (RotatorOp T)) : Rotator T :=
  fold_left rotator_step ops r.

(** What happens to the rotator of a handle if [ForceUpdate()] only sets the
    tag: the sessions store through [Read()] and call [TryRead()], the
    collector marks; its reset of the cell behind [Update()] stores [T()]
    where [T()] already is and is left out. *)
Definition mark_only_life {T} (op : RotatorOp T) : bool :=
  match op with
  | OpTryRead | OpForceMark | OpSetRead _ => true
  | OpSetUpdate _ | OpTryUpdate | OpForceUpdate => false
  end.

(** [Local::Collect()] under that reading. *)
Definition Local_Collect_mark {T} (T0 : T) (r : Rotator T) : T * Rotator T :=
  (Update (ForceUpdate_mark r), set_Update (ForceUpdate_mark r) T0).

(** ** [ReverseRcu<T>] *)

Section ReverseRcu.
Context {T : Type}.
Variable T0 : T.                  (* [T()] *)
Variable combine : T -> T -> T.   (* [a += b] stores [combine a b] in [a] *)

(** [class Local]: the back reference [rcu_] is the collector the handle is
    registered in and is not repeated here.  [snapshot_depth_] is an
    [int_fast16_t]; signed overflow is undefined, so the model covers the
    nests that stay in range. *)
Record Local : Type := mkLocal {
  snapshot_depth_ : Z;
  local_rcu_ : Rotator T
}.

(** [class ReverseRcu]: [threads_] is a set of pointers to [Local] objects
    owned by their threads; a pointer is a key, the object it points to the
    value, so that a call through the pointer updates the one object. *)
Record ReverseRcu : Type := mkReverseRcu {
  value_ : T;
  threads_ : gmap positive Local
}.

(** [ReverseRcu()] *)
Definition ReverseRcu_new : ReverseRcu := mkReverseRcu T0 ∅.

(** [Snapshot(Local& registrar)], to which the copy and the move constructor
    both delegate with [other.registrar_]. *)
Definition Snapshot_ctor (l : Local) : Local :=
  mkLocal (snapshot_depth_ l + 1) (local_rcu_ l).

(** [~Snapshot()]; the flag tells whether [TryRead()] was called. *)
Definition Snapshot_dtor (l : Local) : bool * Local :=
  let d := snapshot_depth_ l - 1 in
  if d =? 0
  then (true, mkLocal d (snd (TryRead (local_rcu_ l))))
  else (false, mkLocal d (local_rcu_ l)).

(** [operator*]: the value behind [registrar_.local_rcu_.Read()] *)
Definition Snapshot_deref (l : Local) : T := Read (local_rcu_ l).

(** The identity of the reference [operator*] returns. *)
Definition Snapshot_ref (l : Local) : Index := read_index (local_rcu_ l).

(** [*snapshot += v] *)
Definition Snapshot_add (l : Local) (v : T) : Local :=
  mkLocal (snapshot_depth_ l)
          (set_Read (local_rcu_ l) (combine (Read (local_rcu_ l)) v)).

(** [Local::Write()] *)
Definition Write (l : Local) : Local := Snapshot_ctor l.

(** [Local::Collect()]:
    [local_rcu_.ForceUpdate(); return absl::exchange(local_rcu_.Update(), T());] *)
Definition Local_Collect (l : Local) : T * Local :=
  let r := ForceUpdate (local_rcu_ l) in
  (Update r, mkLocal (snapshot_depth_ l) (set_Update r T0)).

(** The object a [Local] constructor leaves behind, before it is registered. *)
Definition Local_init : Local :=
  mkLocal 0 (ForceUpdate (Local3StateRcu_new T0)).

(** [Local::Local(ReverseRcu& rcu)] for the object at address [this]. *)
Definition Local_ctor (this : positive) (rcu : ReverseRcu) : ReverseRcu :=
  mkReverseRcu (value_ rcu) (<[this := Local_init]> (threads_ rcu)).

(** [Local::~Local()] *)
Definition Local_dtor (this : positive) (rcu : ReverseRcu) : option ReverseRcu :=
  l ← threads_ rcu !! this;
  Some (mkReverseRcu (combine (value_ rcu) (fst (Local_Collect l)))
                     (delete this (threads_ rcu))).

(** What the loop of [ReverseRcu::Collect] adds to [value_], one item per
    registered handle, in iteration order. *)
Definition contributions (rcu : ReverseRcu) : list T :=
  (fun kv => fst (Local_Collect kv.2)) <$> map_to_list (threads_ rcu).

(** [ReverseRcu::Collect()]: the returned value and the state left. *)
Definition Collect (rcu : ReverseRcu) : T * ReverseRcu :=
  (fold_left combine (contributions rcu) (value_ rcu),
   mkReverseRcu T0 ((fun l => snd (Local_Collect l)) <$> threads_ rcu)).

(** *** Runs of a collector with its handles *)

(** A call through a handle; its address must be registered. *)
Definition with_local (h : positive) (rcu : ReverseRcu)
    (f : Local -> option Local) : option ReverseRcu :=
  l ← threads_ rcu !! h;
  l' ← f l;
  Some (mkReverseRcu (value_ rcu) (<[h := l']> (threads_ rcu))).

Inductive Op : Type :=
  | NewLocal (h : positive)        (* [Local local(rcu)] placed at [h] *)
  | DeleteLocal (h : positive)     (* [~Local()] *)
  | OpenSession (h : positive)     (* [local.Write()] *)
  | CopySession (h : positive)     (* copy or move of a live [Snapshot] *)
  | AddTo (h : positive) (v : T)    (* [*snapshot += v] *)
  | CloseSession (h : positive)    (* [~Snapshot()] *)
  | DoCollect.                     (* [rcu.Collect()] *)

(** Everything a rotator stores. *)
Definition stored (r : Rotator T) : T :=
  combine (combine (cell0 (values r)) (cell1 (values r))) (cell2 (values r)).

(** What a step hands out besides the new state. *)
Inductive Outcome : Type :=
  | Silent
  | Returned (v : T)               (* the result of [Collect()] *)
  | LeftBehind (v : T).            (* what the cells of a destroyed handle still stored *)

Definition has_session (l : Local) : bool := 0 <? snapshot_depth_ l.

(** One operation.  [None] stands for a call the C++ program may not make: a
    handle at an address in use, a call through a dead handle or through a
    [Snapshot] that does not exist, a handle destroyed under its sessions. *)
Definition step (rcu : ReverseRcu) (op : Op) : option (ReverseRcu * Outcome) :=
  match op with
  | NewLocal h =>
      match threads_ rcu !! h with
      | None => Some (Local_ctor h rcu, Silent)
      | Some _ => None
      end
  | DeleteLocal h =>
      l ← threads_ rcu !! h;
      if has_session l then None
      else
        rcu' ← Local_dtor h rcu;
        Some (rcu', LeftBehind (stored (local_rcu_ (snd (Local_Collect l)))))
  | OpenSession h =>
      rcu' ← with_local h rcu (fun l => Some (Write l));
      Some (rcu', Silent)
  | CopySession h =>
      rcu' ← with_local h rcu
        (fun l => if has_session l then Some (Snapshot_ctor l) else None);
      Some (rcu', Silent)
  | AddTo h v =>
      rcu' ← with_local h rcu
        (fun l => if has_session l then Some (Snapshot_add l v) else None);
      Some (rcu', Silent)
  | CloseSession h =>
      rcu' ← with_local h rcu
        (fun l => if has_session l then Some (snd (Snapshot_dtor l)) else None);
      Some (rcu', Silent)
  | DoCollect =>
      let '(v, rcu') := Collect rcu in Some (rcu', Returned v)
  end.

Fixpoint run (rcu : ReverseRcu) (ops : list Op) : option (ReverseRcu * list Outcome) :=
  match ops with
  | [] => Some (rcu, [])
  | op :: ops' =>
      '(rcu1, o) ← step rcu op;
      '(rcu2, os) ← run rcu1 ops';
      Some (rcu2, o :: os)
  end.

(** The results of the [Collect()] calls, in order. *)
Definition returned (os : list Outcome) : list T :=
  omap (fun o => match o with Returned v => Some v | _ => None end) os.

(** The values written, in order. *)
Definition written (ops : list Op) : list T :=
  omap (fun op => match op with AddTo _ v => Some v | _ => None end) ops.

(** What destroyed handles kept in the cells [~Local] does not read. *)
Definition left_behind (os : list Outcome) : list T :=
  omap (fun o => match o with LeftBehind v => Some v | _ => None end) os.

(** The fold of a list of values under the combine operation. *)
Definition fold_combine (l : list T) : T := fold_left combine l T0.

(** What each registered handle stores, in iteration order. *)
Definition stored_by (m : gmap positive Local) : list T :=
  (fun kv => stored (local_rcu_ kv.2)) <$> map_to_list m.

(** Everything a collector and its registered handles hold. *)
Definition held (rcu : ReverseRcu) : T :=
  fold_left combine (stored_by (threads_ rcu)) (value_ rcu).

(** What the sessions of each registered handle have behind [Read()], in
    iteration order. *)
Definition behind_Read (rcu : ReverseRcu) : list T :=
  (fun kv => Snapshot_deref kv.2) <$> map_to_list (threads_ rcu).

(** No [Snapshot] of a registered handle is alive. *)
Definition no_session (rcu : ReverseRcu) : Prop :=
  map_Forall (fun _ l => snapshot_depth_ l = 0) (threads_ rcu).

(** No handle of the run was destroyed with anything in the cells that
    [~Local] does not read. *)
Definition nothing_left (os : list Outcome) : Prop :=
  Forall (fun v => v = T0) (left_behind os).

(** [{ auto s = local.Write(); }] on each handle of [hs] in turn: a session
    that writes nothing. *)
Definition empty_sessions (hs : list positive) : list Op :=
  flat_map (fun h => [OpenSession h; CloseSession h]) hs.

(** A [Collect()], one session of every handle of [hs], a second
    [Collect()]. *)
Definition handshake (hs : list positive) : list Op :=
  DoCollect :: empty_sessions hs ++ [DoCollect].

(** *** One producer thread and its [Snapshot] objects *)

(** A handle with the set of [Snapshot] objects that refer to it and have
    not been destroyed, each named by its address. *)
Record Thread : Type := mkThread {
  th_local : Local;
  th_alive : gset positive
}.

Definition Thread_new : Thread := mkThread Local_init ∅.

Inductive SnapOp : Type :=
  | SWrite (s : positive)             (* [Snapshot s = local.Write()] *)
  | SCopy (src s : positive)          (* [Snapshot s(src)] *)
  | SMove (src s : positive)          (* [Snapshot s(std::move(src))] *)
  | SAdd (s : positive) (v : T)       (* [*s += v] *)
  | SDestroy (s : positive)           (* [s.~Snapshot()] *)
  | SCollect.                         (* [Local::Collect()], by the collector *)

(** A constructor needs an unused address, every other call a live object.
    The flag of the result tells whether the step called [TryRead()]. *)
Definition snap_step (t : Thread) (op : SnapOp) : option (Thread * bool) :=
  let l := th_local t in
  let a := th_alive t in
  match op with
  | SWrite s =>
      if decide (s ∈ a) then None
      else Some (mkThread (Write l) ({[s]} ∪ a), false)
  | SCopy src s | SMove src s =>
      if decide (src ∈ a) then
        if decide (s ∈ a) then None
        else Some (mkThread (Snapshot_ctor l) ({[s]} ∪ a), false)
      else None
  | SAdd s v =>
      if decide (s ∈ a) then Some (mkThread (Snapshot_add l v) a, false) else None
  | SDestroy s =>
      if decide (s ∈ a) then
        let '(called, l') := Snapshot_dtor l in
        Some (mkThread l' (a ∖ {[s]}), called)
      else None
  | SCollect => Some (mkThread (snd (Local_Collect l)) a, false)
  end.

Fixpoint snap_run (t : Thread) (ops : list SnapOp) : option Thread :=
  match ops with
  | [] => Some t
  | op :: ops' => '(t1, _) ← snap_step t op; snap_run t1 ops'
  end.

(** At rest the cell on the collector's side of a handle holds [T()]. *)
Definition collector_side_clear (l : Local) : Prop :=
  roles_distinct (local_rcu_ l) = true /\ Update (local_rcu_ l) = T0.

(** The depth counter counts the [Snapshot] objects alive. *)
Definition depth_counts (t : Thread) : Prop :=
  snapshot_depth_ (th_local t) = Z.of_nat (size (th_alive t)).

(** A handle between sessions for which the collector has staged a cell:
    only the cell behind [Read()] can hold data. *)
Definition awaiting (l : Local) : Prop :=
  snapshot_depth_ l = 0
  /\ collector_side_clear l
  /\ relay (local_rcu_ l) = Staged
  /\ get_cell (values (local_rcu_ l)) (relay_index (local_rcu_ l)) = T0.

(** A handle between sessions that has handed its cell over: only the Relay
    cell can hold data. *)
Definition handed_over (l : Local) : Prop :=
  snapshot_depth_ l = 0
  /\ collector_side_clear l
  /\ relay (local_rcu_ l) = Free
  /\ Read (local_rcu_ l) = T0.
End ReverseRcu.

Arguments NewLocal {T} _.
Arguments DeleteLocal {T} _.
Arguments OpenSession {T} _.
Arguments CopySession {T} _.
Arguments AddTo {T} _ _.
Arguments CloseSession {T} _.
Arguments DoCollect {T}.
Arguments Silent {T}.
Arguments Returned {T} _.
Arguments LeftBehind {T} _.
Arguments SWrite {T} _.
Arguments SCopy {T} _ _.
Arguments SMove {T} _ _.
Arguments SAdd {T} _ _.
Arguments SDestroy {T} _.
Arguments SCollect {T}.

(** ** The scenarios of section 8: [ReverseRcu<int>], combine by [+] *)

(** [{ auto s = local.Write(); *s += v; }]: one session, not nested. *)
Definition session (h : positive) (v : Z) : list (@Op Z) :=
  [OpenSession h; AddTo h v; CloseSession h].

(** A run on [int] from a freshly constructed collector. *)
Definition run_int (ops : list (@Op Z)) : option (@ReverseRcu Z * list (@Outcome Z)) :=
  run 0 Z.add (ReverseRcu_new 0) ops.

(** The values its [Collect()] calls return. *)
Definition collect_results (ops : list (@Op Z)) : option (list Z) :=
  (fun p => returned p.2) <$> run_int ops.

(** One handle, 5 and 7 written in two sessions, then two [Collect()] calls. *)
Definition two_sessions : list (@Op Z) :=
  NewLocal 1%positive :: session 1 5 ++ session 1 7 ++ [DoCollect; DoCollect].

(** Two handles, 3 written through each, both destroyed, then [Collect()]. *)
Definition two_handles : list (@Op Z) :=
  [NewLocal 1%positive; NewLocal 2%positive] ++ session 1 3 ++ session 2 3
  ++ [DeleteLocal 1%positive; DeleteLocal 2%positive; DoCollect].

(** One handle, 5 and 7 written in two sessions, the handle destroyed. *)
Definition two_sessions_destroyed : list (@Op Z) :=
  NewLocal 1%positive :: session 1 5 ++ session 1 7
  ++ [DeleteLocal 1%positive; DoCollect].

(** Two handles; 5 through the first and 3 through the second, the second
    destroyed, 7 through the first in a second session, then [Collect()]. *)
Definition pending_run : list (@Op Z) :=
  [NewLocal 1%positive; NewLocal 2%positive] ++ session 1 5 ++ session 2 3
  ++ [DeleteLocal 2%positive] ++ session 1 7 ++ [DoCollect].

(** The handle of [two_sessions] when the first [Collect()] is called. *)
Definition after_two_sessions : @Thread Z :=
  default (Thread_new 0)
    (snap_run 0 Z.add (Thread_new 0)
       [SWrite 1%positive; SAdd 1%positive 5; SDestroy 1%positive;
        SWrite 1%positive; SAdd 1%positive 7; SDestroy 1%positive]).

(** ** Values that name their origin *)

(** [ReverseRcu<T>] is a template; with [T] a multiset of tokens, [T()] the
    empty multiset and [+=] the disjoint union, every result tells which
    written units are in it and how often. *)
Definition token_session (h : positive) (t : positive) : list (@Op (gmultiset positive)) :=
  [OpenSession h; AddTo h {[+ t +]}; CloseSession h].

(** One handle writing the units 1 and 2, a [Collect()] after each. *)
Definition two_tokens : list (@Op (gmultiset positive)) :=
  NewLocal 1%positive :: token_session 1 1 ++ [DoCollect]
  ++ token_session 1 2 ++ [DoCollect; DoCollect].

(** ** More on the collector and its handles *)

Section CollectorRuns.
Context {T : Type}.
Variable T0 : T.
Variable combine : T -> T -> T.

(** Every registered handle has the cell on the collector's side at [T()]. *)
Definition handles_clear (rcu : @ReverseRcu T) : Prop :=
  forall (h : positive) (l : @Local T),
    threads_ rcu !! h = Some l -> collector_side_clear T0 l.

(** The handles constructed and not yet destroyed in a sequence of calls. *)
Fixpoint live_handles (ops : list (@Op T)) (acc : gset positive) : gset positive :=
  match ops with
  | [] => acc
  | NewLocal h :: ops' => live_handles ops' ({[h]} ∪ acc)
  | DeleteLocal h :: ops' => live_handles ops' (acc ∖ {[h]})
  | _ :: ops' => live_handles ops' acc
  end.

(** [{ auto s = local.Write(); *s += v1; ...; *s += vn; }]: a whole session
    that is not nested, from [Write()] to the destructor of its [Snapshot]. *)
Definition write_session (l : @Local T) (vs : list T) : @Local T :=
  snd (Snapshot_dtor (fold_left (Snapshot_add combine) vs (Write l))).
End CollectorRuns.

(** ** The tests, for any number of rounds *)

(** The loop of [AlternatingUpdatesAndReads] run for [i] from 1 to [n]. *)
Definition alternating_rounds (I : RcuImpl) (n : nat) : list bool :=
  fst (alternating_loop I (map Z.of_nat (seq 1 n)) (alternating_start I)).

(** What the loop keeps between two rounds: after round [i] the Relay is
    [Free], [Read()] holds [-i] and the Relay cell holds [-(i - 1)]. *)
Definition alternating_inv (i : Z) (rcu : Rotator Z) : Prop :=
  roles_distinct rcu = true
  /\ relay rcu = Free
  /\ Read rcu = - i
  /\ get_cell (values rcu) (relay_index rcu) = - (i - 1).

(** [rcu.Update() = v; rcu.TriggerUpdate();] for each [v] in turn. *)
Definition publish_all (vs : list Z) (rcu : Rotator Z) : Rotator Z :=
  fold_left (fun r v => snd (ThreeStateRcu.TriggerUpdate (set_Update r v))) vs rcu.

(** ** [Placement<T, A>] ([src/unnamed/part_000], the header [var_sized.h]) *)

Section PlacementModel.
Variable size_bits : Z.            (* the width of [size_t] *)
Variable sizeof_Placeholder : Z.   (* [sizeof(Placeholder)] *)
Variable sizeof_A : Z.             (* [sizeof(A)] *)
Variable offsetof_node : Z.        (* [offsetof(Placeholder, node)] *)

(** Arithmetic on [size_t] wraps around. *)
Definition size_t (x : Z) : Z := x mod 2 ^ size_bits.

(** [AllocatedUnits()]:
    [(sizeof(Placeholder) + (size_ - 1) * sizeof(A) + sizeof(A) - 1) / sizeof(A)],
    every operation on [size_t]. *)
Definition AllocatedUnits (size_ : Z) : Z :=
  size_t (size_t (size_t (sizeof_Placeholder
                          + size_t (size_t (size_ - 1) * sizeof_A))
                  + sizeof_A)
          - 1)
  / sizeof_A.

(** [class Placement]; the null pointer is 0. *)
Record Placement : Type := mkPlacement {
  size_ : Z;
  allocation_ : Z
}.

(** The blocks handed out by [std::allocator<Unit>] and not given back: the
    address of each with the number of units it was allocated with. *)
Definition allocate (p n : Z) (heap : gmap Z Z) : option (gmap Z Z) :=
  if decide (p = 0) then None
  else match heap !! p with
       | None => Some (<[p := n]> heap)
       | Some _ => None
       end.

(** [deallocate(p, n)] is defined for a block obtained from [allocate(n)]. *)
Definition deallocate (p n : Z) (heap : gmap Z Z) : option (gmap Z Z) :=
  match heap !! p with
  | Some m => if m =? n then Some (delete p heap) else None
  | None => None
  end.

(** [explicit Placement(size_t size)]; [p] is the address the allocator
    returns. *)
Definition Placement_alloc (p size : Z) (heap : gmap Z Z) : option (Placement * gmap Z Z) :=
  heap' ← allocate p (AllocatedUnits size) heap;
  Some (mkPlacement size p, heap').

(** [Placement(T *ptr, size_t size)] *)
Definition Placement_from (ptr size : Z) : Placement :=
  mkPlacement size (ptr - offsetof_node).

(** [Placement(Placement &&other)]: the new object and what is left of
    [other]. *)
Definition Placement_move (other : Placement) : Placement * Placement :=
  (mkPlacement (size_ other) (allocation_ other), mkPlacement (size_ other) 0).

(** [~Placement()] *)
Definition Placement_dtor (pl : Placement) (heap : gmap Z Z) : option (gmap Z Z) :=
  if allocation_ pl =? 0 then Some heap
  else deallocate (allocation_ pl) (AllocatedUnits (size_ pl)) heap.

(** [Node()] *)
Definition Node (pl : Placement) : Z := allocation_ pl + offsetof_node.

(** [Release() &&]: the size, and the object left. *)
Definition Release (pl : Placement) : Z * Placement :=
  (size_ pl, mkPlacement (size_ pl) 0).

(** [ToDeleter() &&]: the [Deleter], which holds the size, and the object
    left. *)
Definition ToDeleter (pl : Placement) : Z * Placement :=
  (size_ pl, mkPlacement (size_ pl) 0).

(** [Deleter::operator()(T *to_delete)]: the destructor of [T] runs on the
    node, then the local [Placement] goes out of scope. *)
Definition Deleter_call (deleter_size to_delete : Z) (heap : gmap Z Z) : option (gmap Z Z) :=
  Placement_dtor (Placement_from to_delete deleter_size) heap.

(** [MakeUnique<U, B>(length, args...)]: the pointer and the deleter of the
    [unique_ptr] returned, and the heap once the local [placement] is gone. *)
Definition MakeUnique (p length : Z) (heap : gmap Z Z) : option ((Z * Z) * gmap Z Z) :=
  '(placement, heap1) ← Placement_alloc p length heap;
  let node := Node placement in
  let '(deleter, placement') := ToDeleter placement in
  heap2 ← Placement_dtor placement' heap1;
  Some ((node, deleter), heap2).
End PlacementModel.

(** ** [CopyOnWrite<T>] (second part of [src/simple_rcu/reverse_rcu.h]) *)

Section CopyOnWriteModel.
Context {T : Type}.
(** [refcount.h] is not among the sources: the counter of a [Refcounted<T>]
    and its three operations are parameters, so that what is proved holds
    whatever they do. *)
Variable Refcount : Type.
Variable Refcount_new : Refcount.             (* the counter [new Refcounted<T>(...)] starts with *)
Variable Inc : Refcount -> Refcount.          (* [refcount.Inc()] *)
Variable Dec : Refcount -> bool * Refcount.   (* [refcount.Dec()]: its result, the counter left *)
Variable IsOne : Refcount -> bool.            (* [refcount.IsOne()] *)

(** [Refcounted<T>], as far as [CopyOnWrite] uses it. *)
Record Refcounted : Type := mkRefcounted {
  refcount : Refcount;
  nested : T
}.

(** A [CopyOnWrite<T>] is its field [refcounted_], a pointer ([None] for
    [nullptr]) into the heap of [Refcounted<T>] objects.  A call that
    dereferences [nullptr] or a pointer to nothing has no result. *)

(** [explicit CopyOnWrite(std::in_place_t, Arg&&... args)]; [p] is the address
    [new] returns. *)
Definition CopyOnWrite_in_place (p : positive) (v : T) (heap : gmap positive Refcounted)
    : option (option positive * gmap positive Refcounted) :=
  match heap !! p with
  | None => Some (Some p, <[p := mkRefcounted Refcount_new v]> heap)
  | Some _ => None
  end.

(** [CopyOnWrite(const CopyOnWrite& that)] *)
Definition CopyOnWrite_copy (that : option positive) (heap : gmap positive Refcounted)
    : option (option positive * gmap positive Refcounted) :=
  p ← that;
  c ← heap !! p;
  Some (Some p, <[p := mkRefcounted (Inc (refcount c)) (nested c)]> heap).

(** [CopyOnWrite(CopyOnWrite&& that)]: the new object and what is left of
    [that]. *)
Definition CopyOnWrite_move (that : option positive) : option positive * option positive :=
  (that, None).

(** [static CopyOnWrite Null()] *)
Definition CopyOnWrite_Null : option positive := None.

(** [void Release(Refcounted<T>* refcounted)]: the new value of
    [refcounted_] and the heap; [SelfDelete()] takes the object off the
    heap. *)
Definition CopyOnWrite_Release (refcounted : option positive)
    (heap : gmap positive Refcounted)
    : option (option positive * gmap positive Refcounted) :=
  match refcounted with
  | None => Some (None, heap)
  | Some q =>
      c ← heap !! q;
      let '(zero, rc) := Dec (refcount c) in
      if zero then Some (Some q, delete q heap)
      else Some (Some q, <[q := mkRefcounted rc (nested c)]> heap)
  end.

(** [~CopyOnWrite() { Release(nullptr); }] *)
Definition CopyOnWrite_dtor (this : option positive) (heap : gmap positive Refcounted)
    : option (option positive * gmap positive Refcounted) :=
  CopyOnWrite_Release None heap.

(** [CopyOnWrite& operator=(CopyOnWrite&& that)]: the new [refcounted_], what
    is left of [that], and the heap. *)
Definition CopyOnWrite_move_assign (this that : option positive)
    (heap : gmap positive Refcounted)
    : option (option positive * option positive * gmap positive Refcounted) :=
  '(this', heap') ← CopyOnWrite_Release that heap;
  Some (this', None, heap').

(** [operator bool] *)
Definition CopyOnWrite_bool (this : option positive) : bool :=
  match this with Some _ => true | None => false end.

(** [operator*] *)
Definition CopyOnWrite_deref (this : option positive) (heap : gmap positive Refcounted)
    : option T :=
  p ← this; nested <$> heap !! p.

(** [as_mutable()]: the new value of [refcounted_], behind which the returned
    reference points, and the heap once [to_release] is destroyed; [q] is the
    address [new] returns if a copy is made. *)
Definition as_mutable (q : positive) (this : option positive)
    (heap : gmap positive Refcounted)
    : option (option positive * gmap positive Refcounted) :=
  p ← this;
  c ← heap !! p;
  if IsOne (refcount c) then Some (Some p, heap)
  else
    '(to_release, heap1) ← CopyOnWrite_in_place q (nested c) heap;
    (* std::swap(refcounted_, to_release.refcounted_) *)
    let this' := to_release in
    let to_release' := Some p in
    '(_, heap2) ← CopyOnWrite_dtor to_release' heap1;
    Some (this', heap2).

(** An assignment through the reference [as_mutable()] returned. *)
Definition store_nested (this : option positive) (v : T) (heap : gmap positive Refcounted)
    : option (gmap positive Refcounted) :=
  p ← this;
  c ← heap !! p;
  Some (<[p := mkRefcounted (refcount c) v]> heap).

(** Calls on [CopyOnWrite] objects, each given the pointer the object holds. *)
Inductive CowCall : Type :=
  | CowInPlace (p : positive) (v : T)
  | CowCopy (that : option positive)
  | CowMove (that : option positive)
  | CowDestroy (this : option positive)
  | CowAsMutable (q : positive) (this : option positive)
  | CowAssign (q : positive) (this : option positive) (v : T).   (* [x.as_mutable() = v] *)

Definition cow_step (heap : gmap positive Refcounted) (c : CowCall)
    : option (gmap positive Refcounted) :=
  match c with
  | CowInPlace p v => snd <$> CopyOnWrite_in_place p v heap
  | CowCopy that => snd <$> CopyOnWrite_copy that heap
  | CowMove that => Some heap
  | CowDestroy this => snd <$> CopyOnWrite_dtor this heap
  | CowAsMutable q this => snd <$> as_mutable q this heap
  | CowAssign q this v =>
      '(this', heap1) ← as_mutable q this heap; store_nested this' v heap1
  end.

Fixpoint cow_run (heap : gmap positive Refcounted) (cs : list CowCall)
    : option (gmap positive Refcounted) :=
  match cs with
  | [] => Some heap
  | c :: cs' => heap1 ← cow_step heap c; cow_run heap1 cs'
  end.
End CopyOnWriteModel.

Arguments Refcounted : clear implicits.
Arguments mkRefcounted {T Refcount} _ _.
Arguments refcount {T Refcount} _.
Arguments nested {T Refcount} _.
Arguments CopyOnWrite_in_place {T Refcount}.
Arguments CopyOnWrite_copy {T Refcount}.
Arguments CopyOnWrite_Release {T Refcount}.
Arguments CopyOnWrite_dtor {T Refcount}.
Arguments CopyOnWrite_move_assign {T Refcount}.
Arguments CopyOnWrite_deref {T Refcount}.
Arguments as_mutable {T Refcount}.
Arguments store_nested {T Refcount}.
Arguments cow_step {T Refcount}.
Arguments cow_run {T Refcount}.
Arguments CowInPlace {T} _ _.
Arguments CowCopy {T} _.
Arguments CowMove {T} _.
Arguments CowDestroy {T} _.
Arguments CowAsMutable {T} _ _.
Arguments CowAssign {T} _ _ _.

(** ** [class Foo] of [src/refcount_struct_test.cc] *)

(** The terminator of a C string. *)
Definition NUL : ascii := Ascii.zero.

(** [strncpy(dest, src, n)] of the C library: [src] is given by the
    characters before its terminator; exactly [n] characters of [dest] are
    written, those of [src] and then terminators.  Writing past the end of
    [dest] has no result. *)
Definition strncpy (dest src : list ascii) (n : nat) : option (list ascii) :=
  if decide (n <= length dest)%nat
  then Some (take n src ++ replicate (n - length src) NUL ++ drop n dest)
  else None.

(** The range of [int], 32 bits wide. *)
Definition INT_MIN : Z := - 2 ^ 31.
Definition INT_MAX : Z := 2 ^ 31 - 1.

(** [counter_++] on an [int]: signed overflow is undefined, so at [INT_MAX]
    there is no result. *)
Definition int_incr (c : Z) : option Z :=
  if decide (INT_MIN <= c < INT_MAX) then Some (c + 1) else None.

(** [counter_--] on an [int], with no result at [INT_MIN]. *)
Definition int_decr (c : Z) : option Z :=
  if decide (INT_MIN < c <= INT_MAX) then Some (c - 1) else None.

(** [Foo(char* buf, size_t len, int& counter, const char* text)]: the buffer
    and the counter it leaves.  With [len = 0] the store [buf[len - 1]] is out
    of bounds. *)
Definition Foo_ctor (buf : list ascii) (len : nat) (counter : Z) (text : list ascii)
    : option (list ascii * Z) :=
  buf1 ← strncpy buf text len;
  match len with
  | O => None
  | S k =>
      counter' ← int_incr counter;
      Some (<[k := NUL]> buf1, counter')
  end.

(** [~Foo()]: [counter_--] *)
Definition Foo_dtor (counter : Z) : option Z := int_decr counter.

(** [text()], the buffer read as a C string up to its terminator; without a
    terminator the read runs past the end. *)
Fixpoint c_str (buf : list ascii) : option (list ascii) :=
  match buf with
  | [] => None
  | c :: buf' => if decide (c = NUL) then Some [] else cons c <$> c_str buf'
  end.

(** * Properties *)

(** ** The rotator *)

Lemma Index_eqb_eq (i j : Index) : Index_eqb i j = true <-> i = j.
Proof. destruct i, j; simpl; split; intros H; try reflexivity; discriminate H. Qed.

Lemma Index_eqb_neq (i j : Index) : Index_eqb i j = false <-> i <> j.
Proof.
  rewrite <- Index_eqb_eq. destruct (Index_eqb i j); split; intros H; try reflexivity.
  - discriminate H.
  - exfalso. apply H. reflexivity.
  - intros H'. discriminate H'.
Qed.

Lemma get_set_same {T} (s : Slots T) (i : Index) (v : T) :
  get_cell (set_cell s i v) i = v.
Proof. destruct i; reflexivity. Qed.

Lemma get_set_other {T} (s : Slots T) (i j : Index) (v : T) :
  i <> j -> get_cell (set_cell s i v) j = get_cell s j.
Proof. destruct i, j; intros H; try reflexivity; exfalso; apply H; reflexivity. Qed.

Lemma roles_distinct_spec {T} (r : Rotator T) :
  roles_distinct r = true <->
  update_index r <> read_index r /\ update_index r <> relay_index r
  /\ read_index r <> relay_index r.
Proof.
  unfold roles_distinct.
  rewrite !andb_true_iff, !negb_true_iff, !Index_eqb_neq. tauto.
Qed.

(** Every operation permutes the roles or leaves them alone. *)
Lemma rotator_step_distinct {T} (r : Rotator T) (op : RotatorOp T) :
  roles_distinct r = true -> roles_distinct (rotator_step r op) = true.
Proof.
  rewrite !roles_distinct_spec. intros (Hur & Hux & Hrx).
  destruct op; simpl; unfold TryUpdate, TryRead; try destruct (relay r); simpl;
    repeat split; auto.
Qed.

Lemma rotator_run_distinct {T} (ops : list (RotatorOp T)) (r : Rotator T) :
  roles_distinct r = true -> roles_distinct (rotator_run r ops) = true.
Proof.
  unfold rotator_run. revert r.
  induction ops as [|op ops IH]; intros r Hr; simpl.
  - exact Hr.
  - apply IH. apply rotator_step_distinct. exact Hr.
Qed.

(** If [ForceUpdate()] only set the tag, the cell behind [Update()] of a
    handle's rotator would hold [T()] for ever and [Local::Collect()] could
    return nothing else. *)
Lemma mark_only_never_delivers {T} (T0 : T) (ops : list (RotatorOp T)) :
  forallb mark_only_life ops = true ->
  fst (Local_Collect_mark T0 (rotator_run (ForceUpdate_mark (Local3StateRcu_new T0)) ops)) = T0.
Proof.
  unfold Local_Collect_mark, rotator_run. simpl.
  assert (H : forall r : Rotator T,
             roles_distinct r = true -> Update r = T0 ->
             forallb mark_only_life ops = true ->
             Update (ForceUpdate_mark (fold_left rotator_step ops r)) = T0).
  { induction ops as [|op ops IH]; intros r Hd Hu Hops; simpl in *.
    - exact Hu.
    - apply andb_true_iff in Hops. destruct Hops as [Hop Hops].
      pose proof Hd as Hd'. apply roles_distinct_spec in Hd'. destruct Hd' as (Hur & Hux & Hrx).
      apply IH; [apply rotator_step_distinct; exact Hd | | exact Hops].
      destruct op; simpl in Hop; try discriminate Hop; simpl.
      + unfold TryRead. destruct (relay r); exact Hu.
      + exact Hu.
      + unfold Update in *. simpl. rewrite get_set_other by auto. exact Hu. }
  intros Hops. apply H; [reflexivity | reflexivity | exact Hops].
Qed.

(** The repository's tests pass on [tested_impl]. *)
Lemma tested_impl_passes :
  passes (UpdateAndRead tested_impl) = true
  /\ passes (AlternatingUpdatesAndReads tested_impl) = true.
Proof. split; vm_compute; reflexivity. Qed.

(** Among the four candidate rotators only the one that starts [Staged] and
    publishes unguarded passes both tests. *)
Lemma tests_pin_down (t : RelayTag) (guarded : bool) :
  passes (UpdateAndRead (family_impl t guarded))
  && passes (AlternatingUpdatesAndReads (family_impl t guarded)) = true
  <-> t = Staged /\ guarded = false.
Proof.
  destruct t, guarded; vm_compute; split; intros H;
    try discriminate H; try (destruct H; discriminate); auto.
Qed.

(** Whatever the implementation, a rotator whose first publish returns true
    fails [EXPECT_FALSE(rcu.TriggerUpdate())] of test [UpdateAndRead]. *)
Lemma first_publish_true_fails_test (I : RcuImpl) :
  fst (impl_TriggerUpdate I (set_Update (impl_new I) 42)) = true ->
  nth 3 (UpdateAndRead I) true = false.
Proof.
  unfold UpdateAndRead.
  destruct (impl_TriggerUpdate I (set_Update (impl_new I) 42)) as [b r].
  destruct (impl_TriggerRead I r) as [b' r'].
  simpl. intros ->. reflexivity.
Qed.

(** C3, as stated, fails on the state in which test [UpdateAndRead] calls
    [TriggerUpdate()]: a freshly constructed rotator whose write slot was set
    to 42.  The call returns false, not true, and it is not a no-op:
    [Update()] reads 0 afterwards and the next [TriggerRead()] exposes 42.
    The rotator that starts with its Relay [Free] and guards the publish
    fails that test at its fourth expectation. *)
Lemma TriggerUpdate_fresh_counterexample :
  let r := set_Update (ThreeStateRcu.new 0) 42 in
  let r' := snd (ThreeStateRcu.TriggerUpdate r) in
  fst (ThreeStateRcu.TriggerUpdate r) = false
  /\ Update r = 42 /\ Update r' = 0 /\ r' <> r
  /\ ThreeStateRcu.TriggerRead r' = (true, consume r')
  /\ Read (consume r') = 42
  /\ fst (TryUpdate (set_Update (Local3StateRcu_new 0) 42)) = true
  /\ nth 3 (UpdateAndRead literal_impl) true = false
  /\ passes (UpdateAndRead tested_impl) = true.
Proof. vm_compute. repeat split; try reflexivity. intros H; discriminate H. Qed.

(** C3 (amended): [TriggerUpdate()] of [ThreeStateRcu] swaps the identities of
    the Write and Relay slots in every state, leaves the values alone and
    marks the Relay [Staged]; it returns true exactly when the Relay was
    [Free], in which case it does what the guarded [try_publish] does.  A
    freshly constructed [ThreeStateRcu] has its Relay [Staged], so the first
    call returns false and a first [TriggerRead()] succeeds. *)
Theorem TriggerUpdate_contract :
  (forall d : Z, relay (ThreeStateRcu.new d) = Staged
                 /\ fst (ThreeStateRcu.TriggerUpdate (ThreeStateRcu.new d)) = false
                 /\ fst (ThreeStateRcu.TriggerRead (ThreeStateRcu.new d)) = true)
  /\ forall r : Rotator Z,
       let '(b, r') := ThreeStateRcu.TriggerUpdate r in
       update_index r' = relay_index r
       /\ relay_index r' = update_index r
       /\ read_index r' = read_index r
       /\ values r' = values r
       /\ relay r' = Staged
       /\ (b = true <-> relay r = Free)
       /\ (b = true -> TryUpdate r = (true, r'))
       /\ (b = false <-> relay r = Staged).
Proof.
  split.
  - intros d. repeat split; reflexivity.
  - intros r. unfold ThreeStateRcu.TriggerUpdate, TryUpdate.
    destruct r as [vs u rd x t]; simpl. destruct t; simpl;
      repeat split; auto; try discriminate.
Qed.

Lemma TriggerUpdate_contract_witness :
  fst (ThreeStateRcu.TriggerUpdate (snd (TryRead (ThreeStateRcu.new 0)))) = true
  /\ TryUpdate (snd (TryRead (ThreeStateRcu.new 0)))
     = (true, snd (ThreeStateRcu.TriggerUpdate (snd (TryRead (ThreeStateRcu.new 0))))).
Proof.
  pose proof (proj2 TriggerUpdate_contract (snd (TryRead (ThreeStateRcu.new 0)))) as H.
  simpl in H. destruct H as (_ & _ & _ & _ & _ & _ & H & _).
  split; [reflexivity | apply H; reflexivity].
Defined.

(** C4: in every state whose Relay is [Staged], [try_consume] ([TryRead()],
    [TriggerRead()]) swaps the identities of the Read and Relay slots, so that
    the staged value is the one [Read()] exposes and the old Read slot is the
    Relay, marked [Free], and returns true; in every state whose Relay is
    [Free] it returns false and changes nothing, in particular neither the
    identity nor the value of the Read slot. *)
Theorem TryRead_contract {T} (r : Rotator T) :
  (relay r = Staged ->
     fst (TryRead r) = true
     /\ read_index (snd (TryRead r)) = relay_index r
     /\ relay_index (snd (TryRead r)) = read_index r
     /\ relay (snd (TryRead r)) = Free
     /\ update_index (snd (TryRead r)) = update_index r
     /\ values (snd (TryRead r)) = values r
     /\ Read (snd (TryRead r)) = get_cell (values r) (relay_index r))
  /\ (relay r = Free ->
        TryRead r = (false, r)
        /\ read_index (snd (TryRead r)) = read_index r
        /\ Read (snd (TryRead r)) = Read r).
Proof.
  unfold TryRead. split; intros ->; simpl; repeat split; reflexivity.
Qed.

Lemma TryRead_contract_witness :
  let r := snd (ThreeStateRcu.TriggerUpdate (set_Update (ThreeStateRcu.new 0) 42)) in
  (fst (ThreeStateRcu.TriggerRead r) = true
   /\ Read (snd (ThreeStateRcu.TriggerRead r)) = 42)
  /\ ThreeStateRcu.TriggerRead (snd (ThreeStateRcu.TriggerRead r))
     = (false, snd (ThreeStateRcu.TriggerRead r)).
Proof.
  cbv zeta.
  set (r := snd (ThreeStateRcu.TriggerUpdate (set_Update (ThreeStateRcu.new 0) 42))).
  split.
  - destruct (proj1 (TryRead_contract r) eq_refl) as (H1 & _ & _ & _ & _ & _ & H2).
    split; [exact H1 | exact H2].
  - exact (proj1 (proj2 (TryRead_contract (snd (ThreeStateRcu.TriggerRead r))) eq_refl)).
Defined.

(** C5: in every state reached from a freshly constructed rotator (of either
    class) by any sequence of publishes, consumes, forced updates and
    assignments through the two references, the reference returned by
    [Update()] and the one returned by [Read()] denote different cells. *)
Theorem Update_Read_never_alias {T} (d : T) (t : RelayTag) (ops : list (RotatorOp T)) :
  update_index (rotator_run (Rotator_new d t) ops)
  <> read_index (rotator_run (Rotator_new d t) ops).
Proof.
  assert (H : roles_distinct (rotator_run (Rotator_new d t) ops) = true).
  { apply rotator_run_distinct. reflexivity. }
  apply roles_distinct_spec in H. tauto.
Qed.

(** C9: a successful [try_publish] hands the writer the former Relay cell with
    the content that was left in it, nothing being reset.  When the reader
    last stored [x] into its Read slot and then consumed (first rotation), the
    next successful publish (second rotation) makes that very cell the Write
    slot, still holding [x], whatever the writer stored in between.  The test
    [AlternatingUpdatesAndReads] passes: after the [TriggerUpdate()] of
    iteration [i], [Update()] reads 1 and 0 for [i] = 1, 2 (the store made
    before the loop and a cell never stored to) and from [i] = 3 on what
    [rcu.Read() = -i] stored two iterations earlier. *)
Theorem publish_recycles_buffer :
  (forall (r : Rotator Z),
      relay r = Free ->
      fst (TryUpdate r) = true
      /\ update_index (snd (TryUpdate r)) = relay_index r
      /\ Update (snd (TryUpdate r)) = get_cell (values r) (relay_index r)
      /\ ThreeStateRcu.TriggerUpdate r = TryUpdate r)
  /\ (forall (r : Rotator Z) (x w : Z),
         roles_distinct r = true ->
         relay r = Staged ->
         let r2 := set_Update (snd (TryRead (set_Read r x))) w in
         fst (TryUpdate r2) = true
         /\ update_index (snd (TryUpdate r2)) = read_index r
         /\ Update (snd (TryUpdate r2)) = x)
  /\ passes (AlternatingUpdatesAndReads tested_impl) = true
  /\ alternating_updates tested_impl (map Z.of_nat (seq 1 10))
       (alternating_start tested_impl)
     = 1 :: 0 :: map (fun i => - Z.of_nat i) (seq 1 8).
Proof.
  split; [|split; [|split]].
  - intros r Hr. unfold ThreeStateRcu.TriggerUpdate, TryUpdate. rewrite Hr.
    simpl. repeat split; reflexivity.
  - intros r x w Hd Hr. apply roles_distinct_spec in Hd. destruct Hd as (Hur & Hux & Hrx).
    destruct r as [vs u rd rl t]; simpl in *. subst t.
    unfold TryRead, TryUpdate, Update; simpl.
    repeat split; try reflexivity.
    rewrite get_set_other by exact Hur. apply get_set_same.
  - vm_compute. reflexivity.
  - vm_compute. reflexivity.
Qed.

Lemma publish_recycles_buffer_witness :
  let r := snd (TryRead (ThreeStateRcu.new 0)) in
  Update (snd (TryUpdate r)) = get_cell (values r) (relay_index r)
  /\ Update (snd (TryUpdate
        (set_Update (snd (TryRead (set_Read (ThreeStateRcu.new 0) (-1)))) 3))) = -1.
Proof.
  cbv zeta. split.
  - destruct (proj1 publish_recycles_buffer (snd (TryRead (ThreeStateRcu.new 0))) eq_refl)
      as (_ & _ & H & _).
    exact H.
  - destruct (proj1 (proj2 publish_recycles_buffer) (ThreeStateRcu.new 0) (-1) 3 eq_refl eq_refl)
      as (_ & _ & H).
    exact H.
Defined.

(** ** Sessions on one producer thread *)

Section Sessions.
Context {T : Type}.
Variable T0 : T.
Variable combine : T -> T -> T.

Lemma size_add_fresh (a : gset positive) (s : positive) :
  s ∉ a -> size ({[s]} ∪ a) = S (size a).
Proof.
  intros Hs. rewrite size_union by set_solver. rewrite size_singleton. reflexivity.
Qed.

Lemma size_remove_alive (a : gset positive) (s : positive) :
  s ∈ a -> size a = S (size (a ∖ {[s]})).
Proof.
  intros Hs. assert (Hfresh : s ∉ a ∖ {[s]}) by (rewrite elem_of_difference, elem_of_singleton; tauto).
  rewrite <- (size_add_fresh (a ∖ {[s]}) s Hfresh).
  f_equal. apply set_eq. intros x. rewrite elem_of_union, elem_of_difference, elem_of_singleton.
  destruct (decide (x = s)) as [->|Hne]; tauto.
Qed.

Lemma Snapshot_dtor_depth (l : @Local T) :
  snapshot_depth_ (snd (Snapshot_dtor l)) = snapshot_depth_ l - 1.
Proof. unfold Snapshot_dtor. destruct (snapshot_depth_ l - 1 =? 0); reflexivity. Qed.

Lemma Snapshot_dtor_called (l : @Local T) :
  fst (Snapshot_dtor l) = true <-> snapshot_depth_ l - 1 = 0.
Proof.
  unfold Snapshot_dtor. destruct (Z.eqb_spec (snapshot_depth_ l - 1) 0); simpl; split;
    intros H; try reflexivity; try assumption; try discriminate H; contradiction.
Qed.

Lemma snap_step_depth_counts (t t' : @Thread T) (op : SnapOp) (called : bool) :
  depth_counts t -> snap_step T0 combine t op = Some (t', called) -> depth_counts t'.
Proof.
  unfold depth_counts, snap_step. intros Hd Hstep.
  destruct op as [s|src s|src s|s v|s|]; repeat case_decide; try discriminate Hstep.
  - inversion Hstep; subst; simpl. rewrite size_add_fresh by assumption. lia.
  - inversion Hstep; subst; simpl. rewrite size_add_fresh by assumption. lia.
  - inversion Hstep; subst; simpl. rewrite size_add_fresh by assumption. lia.
  - inversion Hstep; subst; simpl. exact Hd.
  - destruct (Snapshot_dtor (th_local t)) as [c l'] eqn:Hdt.
    inversion Hstep; subst; simpl.
    pose proof (Snapshot_dtor_depth (th_local t)) as Hdepth. rewrite Hdt in Hdepth.
    simpl in Hdepth. rewrite Hdepth, Hd.
    rewrite (size_remove_alive (th_alive t) s) by assumption. lia.
  - inversion Hstep; subst; simpl. exact Hd.
Qed.

Lemma snap_run_depth_counts (ops : list SnapOp) (t t' : @Thread T) :
  depth_counts t -> snap_run T0 combine t ops = Some t' -> depth_counts t'.
Proof.
  revert t. induction ops as [|op ops IH]; intros t Hd Hrun; simpl in Hrun.
  - inversion Hrun; subst. exact Hd.
  - destruct (snap_step T0 combine t op) as [[t1 c]|] eqn:Hstep; simpl in Hrun;
      [|discriminate Hrun].
    apply (IH t1); [|exact Hrun].
    eapply snap_step_depth_counts; eassumption.
Qed.

Lemma Thread_new_depth_counts : depth_counts (Thread_new T0).
Proof. unfold depth_counts, Thread_new. cbn [th_local th_alive]. rewrite size_empty. reflexivity. Qed.

(** A step that leaves a live [Snapshot] alive does not rotate the slot the
    sessions write to. *)
Lemma snap_step_keeps_ref (t t' : @Thread T) (op : SnapOp) (called : bool) (s : positive) :
  depth_counts t -> s ∈ th_alive t -> op <> SDestroy s ->
  snap_step T0 combine t op = Some (t', called) ->
  Snapshot_ref (th_local t') = Snapshot_ref (th_local t) /\ s ∈ th_alive t'.
Proof.
  unfold depth_counts, snap_step. intros Hd Hs Hop Hstep.
  destruct op as [s1|src s1|src s1|s1 v|s1|]; repeat case_decide; try discriminate Hstep.
  - inversion Hstep; subst; simpl. split; [reflexivity | set_solver].
  - inversion Hstep; subst; simpl. split; [reflexivity | set_solver].
  - inversion Hstep; subst; simpl. split; [reflexivity | set_solver].
  - inversion Hstep; subst; simpl. split; [reflexivity | assumption].
  - assert (Hne : s1 <> s) by (intros ->; apply Hop; reflexivity).
    assert (Hsize : (2 <= size (th_alive t))%nat).
    { rewrite (size_remove_alive (th_alive t) s1) by assumption.
      rewrite (size_remove_alive (th_alive t ∖ {[s1]}) s) by set_solver. lia. }
    unfold Snapshot_dtor in Hstep.
    destruct (Z.eqb_spec (snapshot_depth_ (th_local t) - 1) 0) as [Hz|Hz]; [lia|].
    inversion Hstep; subst; simpl. split; [reflexivity | set_solver].
  - inversion Hstep; subst; simpl. split; [reflexivity | assumption].
Qed.

Lemma snap_run_keeps_ref (ops : list SnapOp) (t t' : @Thread T) (s : positive) :
  depth_counts t -> s ∈ th_alive t -> SDestroy s ∉ ops ->
  snap_run T0 combine t ops = Some t' ->
  Snapshot_ref (th_local t') = Snapshot_ref (th_local t) /\ s ∈ th_alive t'.
Proof.
  revert t. induction ops as [|op ops IH]; intros t Hd Hs Hops Hrun; simpl in Hrun.
  - inversion Hrun; subst. split; [reflexivity | assumption].
  - destruct (snap_step T0 combine t op) as [[t1 c]|] eqn:Hstep; simpl in Hrun;
      [|discriminate Hrun].
    assert (Hop : op <> SDestroy s) by (intros ->; apply Hops; left).
    destruct (snap_step_keeps_ref t t1 op c s Hd Hs Hop Hstep) as [Href Hs1].
    destruct (IH t1) as [Href' Hs'];
      [eapply snap_step_depth_counts; eassumption | assumption
      | intros Hin; apply Hops; right; exact Hin | exact Hrun |].
    split; [congruence | assumption].
Qed.

(** C6: the copy and the move constructor of [Snapshot] add one to the depth
    counter of the handle and give a session that dereferences to the same
    slot; the destructor subtracts one and calls [TryRead()] exactly when the
    counter reaches zero, leaving the rotator alone otherwise.  So in every
    run of one thread (with [Local::Collect()] calls of the collector
    interleaved), the slot the sessions write to keeps its identity as long
    as some [Snapshot], the outermost in particular, is not destroyed. *)
Theorem reentrancy_stability :
  (forall l : @Local T,
      snapshot_depth_ (Snapshot_ctor l) = snapshot_depth_ l + 1
      /\ local_rcu_ (Snapshot_ctor l) = local_rcu_ l
      /\ Snapshot_ref (Snapshot_ctor l) = Snapshot_ref l)
  /\ (forall l : @Local T,
         snapshot_depth_ (snd (Snapshot_dtor l)) = snapshot_depth_ l - 1
         /\ (fst (Snapshot_dtor l) = true <-> snapshot_depth_ l - 1 = 0)
         /\ (fst (Snapshot_dtor l) = true ->
               local_rcu_ (snd (Snapshot_dtor l)) = snd (TryRead (local_rcu_ l)))
         /\ (fst (Snapshot_dtor l) = false ->
               local_rcu_ (snd (Snapshot_dtor l)) = local_rcu_ l))
  /\ (forall (pre ops : list SnapOp) (t t' : @Thread T) (s : positive),
         snap_run T0 combine (Thread_new T0) pre = Some t ->
         s ∈ th_alive t ->
         SDestroy s ∉ ops ->
         snap_run T0 combine t ops = Some t' ->
         Snapshot_ref (th_local t') = Snapshot_ref (th_local t)).
Proof.
  split; [|split].
  - intros l. repeat split.
  - intros l. split; [apply Snapshot_dtor_depth|].
    split; [apply Snapshot_dtor_called|].
    unfold Snapshot_dtor. destruct (snapshot_depth_ l - 1 =? 0); simpl;
      split; intros H; try reflexivity; discriminate H.
  - intros pre ops t t' s Hpre Hs Hops Hrun.
    eapply snap_run_keeps_ref; [|exact Hs|exact Hops|exact Hrun].
    eapply snap_run_depth_counts; [apply Thread_new_depth_counts | exact Hpre].
Qed.

(** C10: the move constructor is the copy constructor: the source stays
    alive and the counter goes up by one.  In every state a thread reaches,
    the depth counter is the number of [Snapshot] objects alive, hence not
    negative, and a step calls [TryRead()] exactly when it destroys the last
    of them, moved-from ones included. *)
Theorem depth_counts_live_snapshots :
  (forall (t : @Thread T) (src s : positive),
      snap_step T0 combine t (SMove src s) = snap_step T0 combine t (SCopy src s))
  /\ (forall (t t' : @Thread T) (src s : positive) (called : bool),
         snap_step T0 combine t (SMove src s) = Some (t', called) ->
         src ∈ th_alive t' /\ s ∈ th_alive t'
         /\ snapshot_depth_ (th_local t') = snapshot_depth_ (th_local t) + 1
         /\ called = false)
  /\ (forall (ops : list SnapOp) (t : @Thread T),
         snap_run T0 combine (Thread_new T0) ops = Some t ->
         snapshot_depth_ (th_local t) = Z.of_nat (size (th_alive t))
         /\ 0 <= snapshot_depth_ (th_local t)
         /\ forall (op : SnapOp) (t' : Thread) (called : bool),
              snap_step T0 combine t op = Some (t', called) ->
              (called = true <-> (exists s, op = SDestroy s) /\ th_alive t' = ∅)).
Proof.
  split; [|split].
  - intros t src s. reflexivity.
  - intros t t' src s called Hstep. unfold snap_step in Hstep.
    repeat case_decide; try discriminate Hstep.
    inversion Hstep; subst; simpl. repeat split; try reflexivity; set_solver.
  - intros ops t Hrun.
    assert (Hd : depth_counts t).
    { eapply snap_run_depth_counts; [apply Thread_new_depth_counts | exact Hrun]. }
    split; [exact Hd|]. split; [rewrite Hd; lia|].
    intros op t' called Hstep.
    pose proof (snap_step_depth_counts t t' op called Hd Hstep) as Hd'.
    unfold depth_counts in Hd, Hd'. unfold snap_step in Hstep.
    destruct op as [s|src s|src s|s v|s|]; repeat case_decide; try discriminate Hstep.
    1-4, 6: inversion Hstep; subst; split;
      [intros Hcalled; discriminate Hcalled | intros [[s' Hs'] _]; discriminate Hs'].
    destruct (Snapshot_dtor (th_local t)) as [c l'] eqn:Hdt.
    inversion Hstep; subst c t'; simpl in *.
    pose proof (Snapshot_dtor_called (th_local t)) as Hc.
    pose proof (Snapshot_dtor_depth (th_local t)) as Hdepth.
    rewrite Hdt in Hc, Hdepth. simpl in Hc, Hdepth.
    rewrite Hc. split.
    + intros Hz. split; [eexists; reflexivity|].
      apply leibniz_equiv, size_empty_iff. lia.
    + intros [_ He]. rewrite He, size_empty in Hd'. lia.
Qed.
End Sessions.

(** ** The collector *)

Section Collector.
Context {T : Type}.
Variable T0 : T.
Variable combine : T -> T -> T.

Lemma Local_Collect_shape (l : @Local T) :
  let r := local_rcu_ l in
  let r' := local_rcu_ (snd (Local_Collect T0 l)) in
  fst (Local_Collect T0 l) = get_cell (values r) (relay_index r)
  /\ update_index r' = relay_index r
  /\ relay_index r' = update_index r
  /\ read_index r' = read_index r
  /\ relay r' = Staged
  /\ values r' = set_cell (values r) (relay_index r) T0
  /\ snapshot_depth_ (snd (Local_Collect T0 l)) = snapshot_depth_ l.
Proof. cbv zeta. unfold Local_Collect. simpl. repeat split. Qed.

Lemma Local_Collect_clear (l : @Local T) :
  roles_distinct (local_rcu_ l) = true ->
  collector_side_clear T0 (snd (Local_Collect T0 l))
  /\ Read (local_rcu_ (snd (Local_Collect T0 l))) = Read (local_rcu_ l).
Proof.
  intros Hd. pose proof Hd as Hd'. apply roles_distinct_spec in Hd'.
  destruct Hd' as (Hur & Hux & Hrx).
  unfold collector_side_clear, Local_Collect. simpl. split; [split|].
  - apply roles_distinct_spec. simpl. repeat split; auto.
  - unfold Update. simpl. apply get_set_same.
  - unfold Read. simpl. apply get_set_other. auto.
Qed.

Lemma snap_step_clear (t t' : @Thread T) (op : SnapOp) (called : bool) :
  collector_side_clear T0 (th_local t) ->
  snap_step T0 combine t op = Some (t', called) ->
  collector_side_clear T0 (th_local t').
Proof.
  unfold snap_step, collector_side_clear. intros [Hd Hu] Hstep.
  pose proof Hd as Hd'. apply roles_distinct_spec in Hd'. destruct Hd' as (Hur & Hux & Hrx).
  destruct op as [s|src s|src s|s v|s|]; repeat case_decide; try discriminate Hstep.
  1-3: injection Hstep as <- <-; simpl; split; assumption.
  - injection Hstep as <- <-; simpl. split; [exact Hd|].
    unfold Update in *. simpl. rewrite get_set_other by auto. exact Hu.
  - unfold Snapshot_dtor, TryRead in Hstep.
    destruct (snapshot_depth_ (th_local t) - 1 =? 0), (relay (local_rcu_ (th_local t))) eqn:Hr;
      injection Hstep as <- <-; simpl; split; try assumption.
    apply roles_distinct_spec. simpl. repeat split; auto.
  - injection Hstep as <- <-; simpl. apply Local_Collect_clear. exact Hd.
Qed.

Lemma snap_run_clear (ops : list SnapOp) (t t' : @Thread T) :
  collector_side_clear T0 (th_local t) ->
  snap_run T0 combine t ops = Some t' ->
  collector_side_clear T0 (th_local t').
Proof.
  revert t. induction ops as [|op ops IH]; intros t Hc Hrun; simpl in Hrun.
  - inversion Hrun; subst. exact Hc.
  - destruct (snap_step T0 combine t op) as [[t1 c]|] eqn:Hstep; simpl in Hrun;
      [|discriminate Hrun].
    apply (IH t1); [|exact Hrun]. eapply snap_step_clear; eassumption.
Qed.

(** C7 (amended): [Local::Collect()] forces an update of the rotator, which
    stages the cell that was behind [Update()], and then exchanges the value
    of the cell that is behind [Update()] now, the former Relay, for [T()]
    and returns it.  The cell behind [Read()], the one the sessions of the
    handle write to, is neither published nor read.  In every state a handle
    reaches the cell behind [Update()] holds [T()], and a second call right
    after the first returns [T()]. *)
Theorem Local_Collect_contract :
  (forall l : @Local T,
      let r := local_rcu_ l in
      let r' := local_rcu_ (snd (Local_Collect T0 l)) in
      fst (Local_Collect T0 l) = Update (ForceUpdate r)
      /\ fst (Local_Collect T0 l) = get_cell (values r) (relay_index r)
      /\ update_index r' = relay_index r
      /\ relay_index r' = update_index r
      /\ relay r' = Staged
      /\ values r' = set_cell (values r) (relay_index r) T0
      /\ read_index r' = read_index r
      /\ (roles_distinct r = true -> Read r' = Read r /\ Update r' = T0))
  /\ (forall (ops : list SnapOp) (t : @Thread T),
         snap_run T0 combine (Thread_new T0) ops = Some t ->
         Update (local_rcu_ (th_local t)) = T0
         /\ fst (Local_Collect T0 (snd (Local_Collect T0 (th_local t)))) = T0).
Proof.
  split.
  - intros l. cbv zeta.
    destruct (Local_Collect_shape l) as (H1 & H2 & H3 & H4 & H5 & H6 & _).
    repeat split; try assumption.
    + apply (Local_Collect_clear l H).
    + apply (Local_Collect_clear l H).
  - intros ops t Hrun.
    assert (Hc : collector_side_clear T0 (th_local t)).
    { eapply snap_run_clear; [|exact Hrun]. split; reflexivity. }
    destruct Hc as [Hd Hu]. apply roles_distinct_spec in Hd. destruct Hd as (Hur & Hux & Hrx).
    split; [exact Hu|].
    unfold Local_Collect, Update in *. simpl.
    rewrite get_set_other by auto. exact Hu.
Qed.

(** C8: the constructor of a handle runs [ForceUpdate()] on a fresh rotator,
    so that the Relay is [Staged] and a first [TryRead()] succeeds, and then
    registers the handle.  A [Collect()] issued next, before any write,
    visits the handle in its loop and folds in what [Local::Collect()]
    returns for it, which is [T()]. *)
Theorem fresh_handle_visible (rcu : @ReverseRcu T) (h : positive) :
  threads_ rcu !! h = None ->
  step T0 combine rcu (NewLocal h) = Some (Local_ctor T0 h rcu, Silent)
  /\ threads_ (Local_ctor T0 h rcu) !! h = Some (Local_init T0)
  /\ local_rcu_ (Local_init T0) = ForceUpdate (Local3StateRcu_new T0)
  /\ relay (local_rcu_ (Local_init T0)) = Staged
  /\ fst (TryRead (local_rcu_ (Local_init T0))) = true
  /\ fst (Local_Collect T0 (Local_init T0)) = T0
  /\ contributions T0 (Local_ctor T0 h rcu) ≡ₚ T0 :: contributions T0 rcu
  /\ fst (Collect T0 combine (Local_ctor T0 h rcu))
     = fold_left combine (contributions T0 (Local_ctor T0 h rcu)) (value_ rcu).
Proof.
  intros Hfresh. repeat split.
  - unfold step. rewrite Hfresh. reflexivity.
  - unfold Local_ctor. simpl. apply lookup_insert_eq.
  - unfold contributions, Local_ctor. simpl.
    rewrite map_to_list_insert by exact Hfresh. reflexivity.
Qed.
End Collector.

(** ** Runs in pieces, and handles between sessions *)

Section CollectorInvariant.
Context {T : Type}.
Variable T0 : T.
Variable combine : T -> T -> T.

Lemma Snapshot_add_clear (l : @Local T) (v : T) :
  collector_side_clear T0 l -> collector_side_clear T0 (Snapshot_add combine l v).
Proof.
  unfold collector_side_clear. intros [Hd Hu].
  pose proof Hd as Hd'. apply roles_distinct_spec in Hd'. destruct Hd' as (Hur & Hux & Hrx).
  unfold Snapshot_add. simpl. split; [exact Hd|].
  unfold Update in *. simpl. rewrite get_set_other by auto. exact Hu.
Qed.

Lemma Snapshot_dtor_clear (l : @Local T) :
  collector_side_clear T0 l -> collector_side_clear T0 (snd (Snapshot_dtor l)).
Proof.
  unfold collector_side_clear. intros [Hd Hu].
  pose proof Hd as Hd'. apply roles_distinct_spec in Hd'. destruct Hd' as (Hur & Hux & Hrx).
  unfold Snapshot_dtor, TryRead.
  destruct (snapshot_depth_ l - 1 =? 0), (relay (local_rcu_ l)); simpl; split;
    try assumption.
  apply roles_distinct_spec. simpl. repeat split; auto.
Qed.

Lemma with_local_clear (rcu rcu' : @ReverseRcu T) (h : positive)
    (f : @Local T -> option (@Local T)) :
  (forall l l', f l = Some l' -> collector_side_clear T0 l -> collector_side_clear T0 l') ->
  handles_clear T0 rcu -> with_local h rcu f = Some rcu' -> handles_clear T0 rcu'.
Proof.
  intros Hf Hc Hw. unfold with_local in Hw.
  destruct (threads_ rcu !! h) as [l|] eqn:Hl; simpl in Hw; [|discriminate Hw].
  destruct (f l) as [l'|] eqn:Hfl; simpl in Hw; [|discriminate Hw].
  injection Hw as <-. intros h1 l1. simpl. rewrite lookup_insert.
  case_decide as Heq.
  - intros [= <-]. apply (Hf l l' Hfl). apply (Hc h l Hl).
  - intros Hl1. apply (Hc h1 l1 Hl1).
Qed.

Lemma step_handles_clear (rcu rcu' : @ReverseRcu T) (op : Op) (o : Outcome) :
  handles_clear T0 rcu -> step T0 combine rcu op = Some (rcu', o) -> handles_clear T0 rcu'.
Proof.
  intros Hc Hstep. destruct op as [h|h|h|h|h v|h|]; cbn [step] in Hstep.
  - destruct (threads_ rcu !! h) eqn:Hl; [discriminate Hstep|].
    injection Hstep as <- <-. intros h1 l1. unfold Local_ctor. simpl.
    rewrite lookup_insert. case_decide as Heq.
    + intros [= <-]. split; reflexivity.
    + intros Hl1. apply (Hc h1 l1 Hl1).
  - destruct (threads_ rcu !! h) as [l|] eqn:Hl; simpl in Hstep; [|discriminate Hstep].
    destruct (has_session l); [discriminate Hstep|].
    unfold Local_dtor in Hstep. rewrite Hl in Hstep. simpl in Hstep.
    injection Hstep as <- <-. intros h1 l1. simpl. rewrite lookup_delete.
    case_decide as Heq; [discriminate|]. intros Hl1. apply (Hc h1 l1 Hl1).
  - destruct (with_local h rcu _) as [rcu1|] eqn:Hw; simpl in Hstep; [|discriminate Hstep].
    injection Hstep as <- <-. eapply with_local_clear; [|exact Hc|exact Hw].
    intros l l' Hf Hl. injection Hf as <-. exact Hl.
  - destruct (with_local h rcu _) as [rcu1|] eqn:Hw; simpl in Hstep; [|discriminate Hstep].
    injection Hstep as <- <-. eapply with_local_clear; [|exact Hc|exact Hw].
    intros l l' Hf Hl. cbv beta in Hf. destruct (has_session l); [|discriminate Hf].
    injection Hf as <-. exact Hl.
  - destruct (with_local h rcu _) as [rcu1|] eqn:Hw; simpl in Hstep; [|discriminate Hstep].
    injection Hstep as <- <-. eapply with_local_clear; [|exact Hc|exact Hw].
    intros l l' Hf Hl. cbv beta in Hf. destruct (has_session l); [|discriminate Hf].
    injection Hf as <-. apply Snapshot_add_clear. exact Hl.
  - destruct (with_local h rcu _) as [rcu1|] eqn:Hw; simpl in Hstep; [|discriminate Hstep].
    injection Hstep as <- <-. eapply with_local_clear; [|exact Hc|exact Hw].
    intros l l' Hf Hl. cbv beta in Hf. destruct (has_session l); [|discriminate Hf].
    injection Hf as <-. apply Snapshot_dtor_clear. exact Hl.
  - unfold Collect in Hstep. injection Hstep as <- <-. intros h1 l1. simpl.
    rewrite lookup_fmap. destruct (threads_ rcu !! h1) as [l|] eqn:Hl; simpl; [|discriminate].
    intros [= <-]. apply Local_Collect_clear. apply (Hc h1 l Hl).
Qed.

Lemma run_handles_clear (ops : list Op) (rcu rcu' : @ReverseRcu T) (os : list Outcome) :
  handles_clear T0 rcu -> run T0 combine rcu ops = Some (rcu', os) -> handles_clear T0 rcu'.
Proof.
  revert rcu os. induction ops as [|op ops IH]; intros rcu os Hc Hrun; simpl in Hrun.
  - injection Hrun as <- _. exact Hc.
  - destruct (step T0 combine rcu op) as [[rcu1 o]|] eqn:Hstep; simpl in Hrun;
      [|discriminate Hrun].
    destruct (run T0 combine rcu1 ops) as [[rcu2 os2]|] eqn:Hrun2; simpl in Hrun;
      [|discriminate Hrun].
    injection Hrun as <- _. eapply IH; [|exact Hrun2].
    eapply step_handles_clear; eassumption.
Qed.

Lemma new_handles_clear : handles_clear T0 (ReverseRcu_new T0).
Proof. intros h l Hl. simpl in Hl. rewrite lookup_empty in Hl. discriminate Hl. Qed.

Lemma run_app (ops1 ops2 : list Op) (rcu : @ReverseRcu T) :
  run T0 combine rcu (ops1 ++ ops2)
  = '(rcu1, os1) ← run T0 combine rcu ops1;
    '(rcu2, os2) ← run T0 combine rcu1 ops2;
    Some (rcu2, os1 ++ os2).
Proof.
  revert rcu. induction ops1 as [|op ops1 IH]; intros rcu; cbn [app run].
  - cbn [mbind option_bind]. destruct (run T0 combine rcu ops2) as [[rcu2 os2]|]; reflexivity.
  - destruct (step T0 combine rcu op) as [[rcu1 o]|]; cbn [mbind option_bind]; [|reflexivity].
    rewrite IH.
    destruct (run T0 combine rcu1 ops1) as [[rcu2 os1]|]; cbn [mbind option_bind]; [|reflexivity].
    destruct (run T0 combine rcu2 ops2) as [[rcu3 os2]|]; reflexivity.
Qed.

Lemma written_empty_sessions (hs : list positive) :
  written (empty_sessions hs) = @nil T.
Proof. induction hs as [|h hs IH]; [reflexivity | exact IH]. Qed.

Lemma returned_Silent (n : nat) : returned (replicate n Silent) = @nil T.
Proof. induction n as [|n IH]; [reflexivity | exact IH]. Qed.

Lemma left_behind_Silent (n : nat) : left_behind (replicate n Silent) = @nil T.
Proof. induction n as [|n IH]; [reflexivity | exact IH]. Qed.

Lemma returned_Silent_app (n : nat) (os : list (@Outcome T)) :
  returned (replicate n Silent ++ os) = returned os.
Proof. induction n as [|n IH]; [reflexivity | exact IH]. Qed.

Lemma left_behind_Silent_app (n : nat) (os : list (@Outcome T)) :
  left_behind (replicate n Silent ++ os) = left_behind os.
Proof. induction n as [|n IH]; [reflexivity | exact IH]. Qed.

Lemma with_local_Some (rcu : @ReverseRcu T) (h : positive) (l l' : @Local T)
    (f : @Local T -> option (@Local T)) :
  threads_ rcu !! h = Some l ->
  f l = Some l' ->
  with_local h rcu f = Some (mkReverseRcu (value_ rcu) (<[h := l']> (threads_ rcu))).
Proof.
  intros Hl Hf. unfold with_local. rewrite Hl. cbn [mbind option_bind].
  rewrite Hf. reflexivity.
Qed.

(** A session that writes nothing, on a handle with no session open. *)
Lemma empty_session_run (rcu : @ReverseRcu T) (h : positive) (l : @Local T) :
  threads_ rcu !! h = Some l ->
  snapshot_depth_ l = 0 ->
  run T0 combine rcu [OpenSession h; CloseSession h]
  = Some (mkReverseRcu (value_ rcu) (<[h := write_session combine l []]> (threads_ rcu)),
          [Silent; Silent]).
Proof.
  intros Hl Hd. cbn [run step].
  rewrite (with_local_Some rcu h l (Write l) _ Hl eq_refl). cbn [mbind option_bind].
  rewrite (with_local_Some _ h (Write l) (snd (Snapshot_dtor (Write l)))).
  - cbn [mbind option_bind value_ threads_]. rewrite insert_insert_eq. reflexivity.
  - cbn [threads_]. apply lookup_insert_eq.
  - unfold has_session, Write, Snapshot_ctor. cbn [snapshot_depth_]. rewrite Hd. reflexivity.
Qed.

(** Its closing [TryRead()] hands over the cell behind [Read()] when one is
    staged, and does nothing when the handle has handed over already. *)
Lemma empty_session_hands_over (l : @Local T) :
  awaiting T0 l \/ handed_over T0 l -> handed_over T0 (write_session combine l []).
Proof.
  unfold awaiting, handed_over, collector_side_clear, write_session, Write, Snapshot_ctor,
    Snapshot_dtor, TryRead.
  intros [(Hd & (Hr & Hu) & Ht & Hc)|(Hd & (Hr & Hu) & Ht & Hc)];
    cbn [fold_left snapshot_depth_ local_rcu_]; rewrite Hd, Ht; cbn [Z.add Z.sub Z.opp Z.pos_sub Z.eqb snd fst];
    simpl.
  - pose proof Hr as Hr'. apply roles_distinct_spec in Hr'. destruct Hr' as (Hur & Hux & Hrx).
    repeat split; try assumption.
    apply roles_distinct_spec. simpl. repeat split; auto.
  - repeat split; assumption.
Qed.

(** Sessions on the handles of [hs]: each of them has handed over, and every
    other handle is as it was. *)
Lemma empty_sessions_run (hs : list positive) (rcu : @ReverseRcu T) :
  (forall h, h ∈ hs -> is_Some (threads_ rcu !! h)) ->
  (forall h l, threads_ rcu !! h = Some l -> awaiting T0 l \/ handed_over T0 l) ->
  exists rcu2 : @ReverseRcu T,
    run T0 combine rcu (empty_sessions hs) = Some (rcu2, replicate (2 * length hs) Silent)
    /\ (forall h l2, threads_ rcu2 !! h = Some l2 ->
          exists l, threads_ rcu !! h = Some l /\ (l2 = l \/ handed_over T0 l2))
    /\ (forall h l2, h ∈ hs -> threads_ rcu2 !! h = Some l2 -> handed_over T0 l2).
Proof.
  revert rcu. induction hs as [|h hs IH]; intros rcu Hin Hinv.
  - exists rcu. split; [reflexivity|]. split.
    + intros h l2 Hl2. exists l2. split; [exact Hl2 | left; reflexivity].
    + intros h l2 Hh. apply elem_of_nil in Hh. contradiction.
  - destruct (Hin h) as [l Hl]; [left|].
    assert (Hdepth : snapshot_depth_ l = 0).
    { destruct (Hinv h l Hl) as [(Hd & _)|(Hd & _)]; exact Hd. }
    assert (Hover : handed_over T0 (write_session combine l []))
      by (apply empty_session_hands_over, (Hinv h l Hl)).
    set (rcu1 := mkReverseRcu (value_ rcu) (<[h := write_session combine l []]> (threads_ rcu))).
    destruct (IH rcu1) as (rcu2 & Hrun & Hfrom & Hdone).
    { intros h' Hh'. unfold rcu1. cbn [threads_]. rewrite lookup_insert_is_Some.
      destruct (decide (h = h')) as [->|Hne]; [left; reflexivity|].
      right. split; [exact Hne|]. apply Hin. right. exact Hh'. }
    { intros h' l'. unfold rcu1. cbn [threads_]. rewrite lookup_insert.
      case_decide as Heq.
      - intros [= <-]. right. exact Hover.
      - apply Hinv. }
    exists rcu2. split; [|split].
    + change (empty_sessions (h :: hs))
        with ([OpenSession h; CloseSession h] ++ @empty_sessions T hs).
      rewrite run_app, (empty_session_run rcu h l Hl Hdepth). cbn [mbind option_bind].
      fold rcu1. rewrite Hrun. cbn [mbind option_bind length].
      replace (2 * S (length hs))%nat with (S (S (2 * length hs))) by lia. reflexivity.
    + intros h' l2 Hl2. destruct (Hfrom h' l2 Hl2) as (l1 & Hl1 & Hsame).
      unfold rcu1 in Hl1. cbn [threads_] in Hl1. rewrite lookup_insert in Hl1.
      case_decide as Heq.
      * injection Hl1 as <-. subst h'. exists l. split; [exact Hl|].
        right. destruct Hsame as [->|Hh]; [exact Hover | exact Hh].
      * exists l1. split; [exact Hl1 | exact Hsame].
    + intros h' l2 Hh' Hl2. apply elem_of_cons in Hh'. destruct Hh' as [->|Hh'].
      * destruct (Hfrom h l2 Hl2) as (l1 & Hl1 & Hsame).
        unfold rcu1 in Hl1. cbn [threads_] in Hl1. rewrite lookup_insert_eq in Hl1.
        injection Hl1 as <-. destruct Hsame as [->|Hh]; [exact Hover | exact Hh].
      * apply (Hdone h' l2 Hh' Hl2).
Qed.

(** After [Collect()] every handle with no session open waits for its next
    session with a cell staged. *)
Lemma Local_Collect_awaiting (l : @Local T) :
  collector_side_clear T0 l ->
  snapshot_depth_ l = 0 ->
  awaiting T0 (snd (Local_Collect T0 l)).
Proof.
  intros [Hr Hu] Hd. pose proof (Local_Collect_clear T0 l Hr) as [Hc _].
  split; [exact Hd|]. split; [exact Hc|]. split; [reflexivity|].
  apply roles_distinct_spec in Hr. destruct Hr as (Hur & Hux & Hrx).
  unfold Local_Collect, Update in *. simpl. rewrite get_set_other by auto. exact Hu.
Qed.

(** A [Collect()] finds nothing in a handle that the one before it left. *)
Lemma Local_Collect_twice (l : @Local T) :
  collector_side_clear T0 l ->
  fst (Local_Collect T0 (snd (Local_Collect T0 l))) = T0.
Proof.
  intros [Hr Hu]. apply roles_distinct_spec in Hr. destruct Hr as (Hur & Hux & Hrx).
  unfold Local_Collect, Update in *. simpl. rewrite get_set_other by auto. exact Hu.
Qed.
End CollectorInvariant.

(** ** Accounting for what is written *)

Section Conservation.
Context {T : Type}.
Variable T0 : T.
Variable combine : T -> T -> T.
Hypothesis combine_assoc : forall a b c, combine (combine a b) c = combine a (combine b c).
Hypothesis combine_comm : forall a b, combine a b = combine b a.
Hypothesis combine_T0 : forall a, combine a T0 = a.

#[local] Instance combine_Associative : Associative eq combine.
Proof. intros a b c. symmetry. apply combine_assoc. Qed.

#[local] Instance combine_Commutative : Commutative eq combine.
Proof. intros a b. apply combine_comm. Qed.

#[local] Instance combine_Unit : Unit eq combine T0.
Proof. split; intros a; [rewrite combine_comm|]; apply combine_T0. Qed.

#[local] Instance combine_Proper : Proper (eq ==> eq ==> eq) combine.
Proof. intros a a' -> b b' ->. reflexivity. Qed.

#[local] Instance eq_AAC_lift : AAC_lift (@eq T) eq.
Proof. split; [exact eq_equivalence | intros a a' -> b b' ->; reflexivity]. Qed.

Local Infix "⊕" := combine (at level 50, left associativity).
#[local] Abbreviation total := (fold_combine T0 combine).

Lemma fold_left_combine (l : list T) (a : T) :
  fold_left combine l a = a ⊕ total l.
Proof.
  unfold fold_combine. revert a. induction l as [|x l IH]; intros a; simpl.
  - aac_reflexivity.
  - rewrite (IH (a ⊕ x)), (IH (T0 ⊕ x)). aac_reflexivity.
Qed.

Lemma total_cons (x : T) (l : list T) : total (x :: l) = x ⊕ total l.
Proof.
  unfold fold_combine at 1. simpl. rewrite fold_left_combine. aac_reflexivity.
Qed.

Lemma total_nil : total [] = T0.
Proof. reflexivity. Qed.

Lemma total_single (x : T) : total [x] = x.
Proof. rewrite total_cons, total_nil. aac_reflexivity. Qed.

Lemma total_app (l1 l2 : list T) : total (l1 ++ l2) = total l1 ⊕ total l2.
Proof.
  induction l1 as [|x l1 IH]; cbn [app].
  - rewrite total_nil. aac_reflexivity.
  - rewrite !total_cons, IH. aac_reflexivity.
Qed.

Lemma total_Permutation (l1 l2 : list T) : l1 ≡ₚ l2 -> total l1 = total l2.
Proof.
  induction 1 as [|x l1 l2 _ IH|x y l|l1 l2 l3 _ IH1 _ IH2].
  - reflexivity.
  - rewrite !total_cons, IH. reflexivity.
  - rewrite !total_cons. aac_reflexivity.
  - congruence.
Qed.

Lemma held_eq (rcu : @ReverseRcu T) :
  held combine rcu = value_ rcu ⊕ total (stored_by combine (threads_ rcu)).
Proof. unfold held. apply fold_left_combine. Qed.

Lemma stored_by_insert_fresh (m : gmap positive (@Local T)) (h : positive) (l : @Local T) :
  m !! h = None ->
  total (stored_by combine (<[h := l]> m))
  = stored combine (local_rcu_ l) ⊕ total (stored_by combine m).
Proof.
  intros Hm. rewrite <- total_cons. apply total_Permutation.
  unfold stored_by. rewrite map_to_list_insert by exact Hm. reflexivity.
Qed.

Lemma stored_by_delete (m : gmap positive (@Local T)) (h : positive) (l : @Local T) :
  m !! h = Some l ->
  total (stored_by combine m)
  = stored combine (local_rcu_ l) ⊕ total (stored_by combine (delete h m)).
Proof.
  intros Hm. rewrite <- total_cons. apply total_Permutation.
  unfold stored_by. rewrite <- (map_to_list_delete m h l Hm). reflexivity.
Qed.

Lemma stored_by_update (m : gmap positive (@Local T)) (h : positive) (l l' : @Local T) :
  m !! h = Some l ->
  total (stored_by combine (<[h := l']> m))
  = stored combine (local_rcu_ l') ⊕ total (stored_by combine (delete h m)).
Proof.
  intros Hm. rewrite <- insert_delete_eq.
  apply stored_by_insert_fresh. apply lookup_delete_eq.
Qed.

(** A call through a handle changes what is held by what it changes in the
    cells of that handle. *)
Lemma with_local_held (rcu rcu' : @ReverseRcu T) (h : positive)
    (f : @Local T -> option (@Local T)) (d : T) :
  (forall l l', f l = Some l' ->
     stored combine (local_rcu_ l') = stored combine (local_rcu_ l) ⊕ d) ->
  with_local h rcu f = Some rcu' ->
  held combine rcu' = held combine rcu ⊕ d.
Proof.
  intros Hf Hw. unfold with_local in Hw.
  destruct (threads_ rcu !! h) as [l|] eqn:Hl; simpl in Hw; [|discriminate Hw].
  destruct (f l) as [l'|] eqn:Hfl; simpl in Hw; [|discriminate Hw].
  injection Hw as <-. rewrite !held_eq. simpl.
  rewrite (stored_by_update _ h l l' Hl), (stored_by_delete _ h l Hl), (Hf l l' Hfl).
  aac_reflexivity.
Qed.

Lemma stored_Snapshot_add (l : @Local T) (v : T) :
  stored combine (local_rcu_ (Snapshot_add combine l v))
  = stored combine (local_rcu_ l) ⊕ v.
Proof.
  unfold Snapshot_add, stored, Read. simpl.
  destruct (read_index (local_rcu_ l)); simpl; aac_reflexivity.
Qed.

Lemma stored_Snapshot_dtor (l : @Local T) :
  stored combine (local_rcu_ (snd (Snapshot_dtor l))) = stored combine (local_rcu_ l).
Proof.
  unfold Snapshot_dtor, TryRead.
  destruct (snapshot_depth_ l - 1 =? 0), (relay (local_rcu_ l)); reflexivity.
Qed.

Lemma stored_Local_Collect (l : @Local T) :
  stored combine (local_rcu_ l)
  = fst (Local_Collect T0 l) ⊕ stored combine (local_rcu_ (snd (Local_Collect T0 l))).
Proof.
  unfold Local_Collect, stored, Update. simpl.
  destruct (relay_index (local_rcu_ l)); simpl; aac_reflexivity.
Qed.

Lemma collect_list (kvs : list (positive * @Local T)) :
  total ((fun kv => stored combine (local_rcu_ kv.2)) <$> kvs)
  = total ((fun kv => fst (Local_Collect T0 kv.2)) <$> kvs)
    ⊕ total ((fun kv => stored combine (local_rcu_ kv.2))
               <$> (prod_map id (fun l => snd (Local_Collect T0 l)) <$> kvs)).
Proof.
  induction kvs as [|[k l] kvs IH]; cbn [fmap list_fmap].
  - rewrite !total_nil. aac_reflexivity.
  - rewrite !total_cons, IH. cbn [fst snd prod_map id].
    rewrite (stored_Local_Collect l). aac_reflexivity.
Qed.

Lemma Collect_held (rcu : @ReverseRcu T) :
  held combine rcu
  = fst (Collect T0 combine rcu) ⊕ held combine (snd (Collect T0 combine rcu)).
Proof.
  rewrite !held_eq. unfold Collect. cbn [fst snd value_ threads_]. rewrite fold_left_combine.
  unfold stored_by, contributions. rewrite map_to_list_fmap.
  rewrite (collect_list (map_to_list (threads_ rcu))). aac_reflexivity.
Qed.

Ltac eval_singletons :=
  repeat match goal with
  | |- context [written [?op]] =>
      let v := eval cbv in (written [op]) in change (written [op]) with v
  | |- context [returned [?o]] =>
      let v := eval cbv in (returned [o]) in change (returned [o]) with v
  | |- context [left_behind [?o]] =>
      let v := eval cbv in (left_behind [o]) in change (left_behind [o]) with v
  end;
  rewrite ?total_nil, ?total_single.

Lemma step_conserves (rcu rcu' : @ReverseRcu T) (op : Op) (o : Outcome) :
  step T0 combine rcu op = Some (rcu', o) ->
  held combine rcu ⊕ total (written [op])
  = total (returned [o]) ⊕ held combine rcu' ⊕ total (left_behind [o]).
Proof.
  intros Hstep. destruct op as [h|h|h|h|h v|h|]; cbn [step] in Hstep.
  - destruct (threads_ rcu !! h) eqn:Hl; [discriminate Hstep|].
    injection Hstep as <- <-. eval_singletons. rewrite !held_eq.
    unfold Local_ctor. cbn [value_ threads_].
    rewrite (stored_by_insert_fresh _ h _ Hl). unfold stored at 1. simpl.
    aac_reflexivity.
  - destruct (threads_ rcu !! h) as [l|] eqn:Hl; simpl in Hstep; [|discriminate Hstep].
    destruct (has_session l); [discriminate Hstep|].
    unfold Local_dtor in Hstep. rewrite Hl in Hstep. simpl in Hstep.
    injection Hstep as <- <-.
    change (left_behind [LeftBehind ?x]) with [x].
    eval_singletons. rewrite !held_eq. cbn [value_ threads_].
    rewrite (stored_by_delete _ h l Hl), (stored_Local_Collect l).
    unfold Local_Collect. cbn [fst snd local_rcu_]. aac_reflexivity.
  - destruct (with_local h rcu _) as [rcu1|] eqn:Hw; simpl in Hstep; [|discriminate Hstep].
    injection Hstep as <- <-. eval_singletons.
    apply (with_local_held _ _ _ _ T0) in Hw; [rewrite Hw; aac_reflexivity|].
    intros l l' Hf. injection Hf as <-. simpl. aac_reflexivity.
  - destruct (with_local h rcu _) as [rcu1|] eqn:Hw; simpl in Hstep; [|discriminate Hstep].
    injection Hstep as <- <-. eval_singletons.
    apply (with_local_held _ _ _ _ T0) in Hw; [rewrite Hw; aac_reflexivity|].
    intros l l' Hf. destruct (has_session l); [|discriminate Hf].
    injection Hf as <-. simpl. aac_reflexivity.
  - destruct (with_local h rcu _) as [rcu1|] eqn:Hw; simpl in Hstep; [|discriminate Hstep].
    injection Hstep as <- <-. eval_singletons.
    apply (with_local_held _ _ _ _ v) in Hw; [rewrite Hw; aac_reflexivity|].
    intros l l' Hf. destruct (has_session l); [|discriminate Hf].
    injection Hf as <-. apply stored_Snapshot_add.
  - destruct (with_local h rcu _) as [rcu1|] eqn:Hw; simpl in Hstep; [|discriminate Hstep].
    injection Hstep as <- <-. eval_singletons.
    apply (with_local_held _ _ _ _ T0) in Hw; [rewrite Hw; aac_reflexivity|].
    intros l l' Hf. destruct (has_session l); [|discriminate Hf].
    injection Hf as <-. rewrite stored_Snapshot_dtor. aac_reflexivity.
  - pose proof (Collect_held rcu) as Hc.
    destruct (Collect T0 combine rcu) as [v rcu1]. cbn [fst snd] in Hc.
    injection Hstep as <- <-. eval_singletons. rewrite Hc.
    aac_reflexivity.
Qed.

Lemma written_cons (op : Op) (ops : list (@Op T)) :
  written (op :: ops) = written [op] ++ written ops.
Proof. unfold written. simpl. destruct op; reflexivity. Qed.

Lemma returned_cons (o : Outcome) (os : list (@Outcome T)) :
  returned (o :: os) = returned [o] ++ returned os.
Proof. unfold returned. simpl. destruct o; reflexivity. Qed.

Lemma left_behind_cons (o : Outcome) (os : list (@Outcome T)) :
  left_behind (o :: os) = left_behind [o] ++ left_behind os.
Proof. unfold left_behind. simpl. destruct o; reflexivity. Qed.

Lemma run_conserves (ops : list Op) (rcu rcu' : @ReverseRcu T) (os : list Outcome) :
  run T0 combine rcu ops = Some (rcu', os) ->
  held combine rcu ⊕ total (written ops)
  = total (returned os) ⊕ held combine rcu' ⊕ total (left_behind os).
Proof.
  revert rcu rcu' os. induction ops as [|op ops IH]; intros rcu rcu' os Hrun; simpl in Hrun.
  - injection Hrun as <- <-.
    change (written []) with (@nil T). change (returned []) with (@nil T).
    change (left_behind []) with (@nil T). rewrite !total_nil. aac_reflexivity.
  - destruct (step T0 combine rcu op) as [[rcu1 o]|] eqn:Hstep; simpl in Hrun;
      [|discriminate Hrun].
    destruct (run T0 combine rcu1 ops) as [[rcu2 os2]|] eqn:Hrun2; simpl in Hrun;
      [|discriminate Hrun].
    injection Hrun as <- <-.
    rewrite written_cons, returned_cons, left_behind_cons, !total_app.
    pose proof (step_conserves _ _ _ _ Hstep) as H1.
    pose proof (IH _ _ _ Hrun2) as H2.
    transitivity ((held combine rcu ⊕ total (written [op])) ⊕ total (written ops));
      [aac_reflexivity|].
    rewrite H1.
    transitivity ((held combine rcu1 ⊕ total (written ops))
                  ⊕ total (returned [o]) ⊕ total (left_behind [o]));
      [aac_reflexivity|].
    rewrite H2. aac_reflexivity.
Qed.

(** From a freshly constructed collector. *)
Lemma run_accounting (ops : list Op) (rcu : @ReverseRcu T) (os : list Outcome) :
  run T0 combine (ReverseRcu_new T0) ops = Some (rcu, os) ->
  total (written ops)
  = total (returned os) ⊕ held combine rcu ⊕ total (left_behind os).
Proof.
  intros Hrun. rewrite <- (run_conserves ops _ _ _ Hrun).
  rewrite (held_eq (ReverseRcu_new T0)). unfold ReverseRcu_new, stored_by.
  cbn [value_ threads_]. rewrite map_to_list_empty.
  change (total (_ <$> [])) with T0. aac_reflexivity.
Qed.

Lemma total_all_default (l : list T) : Forall (fun x => x = T0) l -> total l = T0.
Proof.
  induction 1 as [|x l Hx _ IH]; [reflexivity|].
  rewrite total_cons, IH, Hx. aac_reflexivity.
Qed.

(** After [Local::Collect()] a handle stores what is behind [Read()] and
    nothing else. *)
Lemma stored_after_Local_Collect (l : @Local T) :
  collector_side_clear T0 l ->
  stored combine (local_rcu_ (snd (Local_Collect T0 l))) = Snapshot_deref l.
Proof.
  intros [Hd Hu]. destruct l as [d [[c0 c1 c2] u r x t]].
  unfold Local_Collect, stored, Snapshot_deref, Read, Update, roles_distinct in *.
  destruct u, r, x; simpl in *; try discriminate Hd; rewrite ?Hu; aac_reflexivity.
Qed.

Lemma held_after_Collect (rcu : @ReverseRcu T) :
  handles_clear T0 rcu ->
  held combine (snd (Collect T0 combine rcu)) = total (behind_Read rcu).
Proof.
  intros Hc. rewrite held_eq. unfold Collect, stored_by, behind_Read. cbn [snd value_ threads_].
  rewrite map_to_list_fmap, <- list_fmap_compose.
  transitivity (T0 ⊕ total ((fun kv => Snapshot_deref kv.2) <$> map_to_list (threads_ rcu)));
    [|aac_reflexivity].
  f_equal. f_equal. apply Forall_fmap_ext_1, Forall_forall. intros [h l] Hin.
  apply elem_of_map_to_list in Hin. simpl. apply stored_after_Local_Collect. apply (Hc h l Hin).
Qed.

(** What is written and was not lost with a handle has been returned, would
    be returned by a [Collect()] now, or is behind [Read()]. *)
Lemma run_delivers (ops : list Op) (rcu : @ReverseRcu T) (os : list Outcome) :
  run T0 combine (ReverseRcu_new T0) ops = Some (rcu, os) ->
  nothing_left T0 os ->
  total (written ops)
  = total (returned os) ⊕ fst (Collect T0 combine rcu) ⊕ total (behind_Read rcu).
Proof.
  intros Hrun Hleft.
  assert (Hc : handles_clear T0 rcu)
    by (eapply run_handles_clear; [apply new_handles_clear | exact Hrun]).
  rewrite (run_accounting ops rcu os Hrun), (total_all_default _ Hleft).
  rewrite (Collect_held rcu), (held_after_Collect rcu Hc). aac_reflexivity.
Qed.

(** Once every handle has handed over, a [Collect()] empties them all. *)
Lemma Collect_after_hand_over (rcu : @ReverseRcu T) :
  (forall h l, threads_ rcu !! h = Some l -> handed_over T0 l) ->
  held combine (snd (Collect T0 combine rcu)) = T0
  /\ fst (Collect T0 combine (snd (Collect T0 combine rcu))) = T0
  /\ Forall (fun v => v = T0) (behind_Read (snd (Collect T0 combine rcu))).
Proof.
  intros Hover.
  assert (Hc : handles_clear T0 rcu).
  { intros h l Hl. destruct (Hover h l Hl) as (_ & Hc & _). exact Hc. }
  assert (Hread : Forall (fun v => v = T0) (behind_Read rcu)).
  { unfold behind_Read. apply Forall_fmap, Forall_forall. intros [h l] Hin.
    apply elem_of_map_to_list in Hin. destruct (Hover h l Hin) as (_ & _ & _ & Hr). exact Hr. }
  split; [|split].
  - rewrite (held_after_Collect rcu Hc). apply total_all_default. exact Hread.
  - unfold Collect at 1. cbn [fst]. change (value_ _) with T0.
    rewrite fold_left_combine.
    transitivity (T0 ⊕ T0); [|aac_reflexivity]. f_equal.
    apply total_all_default. unfold contributions, Collect. cbn [snd threads_].
    rewrite map_to_list_fmap, <- list_fmap_compose.
    apply Forall_fmap, Forall_forall. intros [h l] Hin.
    apply elem_of_map_to_list in Hin. apply (Local_Collect_twice T0 l (Hc h l Hin)).
  - unfold behind_Read, Collect. cbn [snd threads_].
    rewrite map_to_list_fmap, <- list_fmap_compose.
    apply Forall_fmap, Forall_forall. intros [h l] Hin.
    apply elem_of_map_to_list in Hin. cbn [compose prod_map snd id].
    destruct (Hc h l Hin) as [Hd _]. destruct (Local_Collect_clear T0 l Hd) as [_ Hsame].
    unfold Snapshot_deref. rewrite Hsame.
    destruct (Hover h l Hin) as (_ & _ & _ & Hr). exact Hr.
Qed.

(** A [Collect()], one session of every handle and a second [Collect()]
    return between them all that was pending. *)
Lemma handshake_delivers (ops : list Op) (rcu : @ReverseRcu T) (os : list Outcome)
    (hs : list positive) :
  run T0 combine (ReverseRcu_new T0) ops = Some (rcu, os) ->
  no_session rcu ->
  (list_to_set hs : gset positive) = dom (threads_ rcu) ->
  exists (rcu' : @ReverseRcu T) (os' : list Outcome),
    run T0 combine (ReverseRcu_new T0) (ops ++ handshake hs) = Some (rcu', os ++ os')
    /\ returned os' = [fst (Collect T0 combine rcu); total (behind_Read rcu)]
    /\ left_behind os' = []
    /\ fst (Collect T0 combine rcu') = T0
    /\ Forall (fun v => v = T0) (behind_Read rcu').
Proof.
  intros Hrun Hrest Hhs.
  assert (Hc : handles_clear T0 rcu)
    by (eapply run_handles_clear; [apply new_handles_clear | exact Hrun]).
  set (rcu1 := snd (Collect T0 combine rcu)).
  destruct (empty_sessions_run T0 combine hs rcu1) as (rcu2 & Hrun2 & Hfrom & Hdone).
  { intros h Hh. unfold rcu1, Collect. cbn [snd threads_]. rewrite lookup_fmap.
    apply fmap_is_Some, elem_of_dom. rewrite <- Hhs.
    apply (elem_of_list_to_set (C := gset positive)). exact Hh. }
  { intros h l1. unfold rcu1, Collect. cbn [snd threads_]. rewrite lookup_fmap.
    destruct (threads_ rcu !! h) as [l|] eqn:Hl; [|discriminate].
    intros [= <-]. left. apply Local_Collect_awaiting; [apply (Hc h l Hl)|].
    apply (map_Forall_lookup_1 _ _ h l Hrest Hl). }
  assert (Hover : forall h l, threads_ rcu2 !! h = Some l -> handed_over T0 l).
  { intros h l2 Hl2. apply (Hdone h l2); [|exact Hl2].
    destruct (Hfrom h l2 Hl2) as (l1 & Hl1 & _).
    apply (elem_of_list_to_set (C := gset positive)). rewrite Hhs. apply elem_of_dom.
    unfold rcu1, Collect in Hl1. cbn [snd threads_] in Hl1. rewrite lookup_fmap in Hl1.
    destruct (threads_ rcu !! h) as [l|]; [eexists; reflexivity | discriminate Hl1]. }
  destruct (Collect_after_hand_over rcu2 Hover) as (Hheld & Hnext & Hread).
  assert (Hb : fst (Collect T0 combine rcu2) = total (behind_Read rcu)).
  { pose proof (run_conserves (empty_sessions hs) rcu1 rcu2 _ Hrun2) as Hcons.
    rewrite written_empty_sessions, returned_Silent, left_behind_Silent, total_nil in Hcons.
    rewrite <- (held_after_Collect rcu Hc). fold rcu1.
    transitivity (held combine rcu1 ⊕ T0); [|aac_reflexivity]. rewrite Hcons.
    rewrite (Collect_held rcu2), Hheld. aac_reflexivity. }
  exists (snd (Collect T0 combine rcu2)),
    (Returned (fst (Collect T0 combine rcu))
       :: replicate (2 * length hs) Silent ++ [Returned (fst (Collect T0 combine rcu2))]).
  split; [|split; [|split; [|split]]].
  - rewrite run_app, Hrun. cbn [mbind option_bind]. unfold handshake. cbn [run step].
    destruct (Collect T0 combine rcu) as [a r1] eqn:Hcol. cbn [mbind option_bind].
    unfold rcu1 in Hrun2. cbn [snd] in Hrun2.
    rewrite run_app, Hrun2. cbn [mbind option_bind run step].
    destruct (Collect T0 combine rcu2) as [b r3]. cbn [mbind option_bind fst snd].
    reflexivity.
  - rewrite returned_cons, returned_Silent_app, Hb. reflexivity.
  - rewrite left_behind_cons, left_behind_Silent_app. reflexivity.
  - exact Hnext.
  - exact Hread.
Qed.
End Conservation.

(** ** No unit in two results *)

Lemma tokens_assoc (a b c : gmultiset positive) : a ⊎ b ⊎ c = a ⊎ (b ⊎ c).
Proof. symmetry. apply (assoc_L (⊎)). Qed.

Lemma tokens_comm (a b : gmultiset positive) : a ⊎ b = b ⊎ a.
Proof. apply (comm_L (⊎)). Qed.

Lemma tokens_unit (a : gmultiset positive) : a ⊎ ∅ = a.
Proof. apply (right_id_L ∅ (⊎)). Qed.

Lemma tokens_total_cons (x : gmultiset positive) (l : list (gmultiset positive)) :
  fold_combine ∅ (⊎) (x :: l) = x ⊎ fold_combine ∅ (⊎) l.
Proof. apply (total_cons ∅ (⊎) tokens_assoc tokens_comm tokens_unit). Qed.

Lemma multiplicity_total_one (t : positive) (l : list (gmultiset positive))
    (i : nat) (x : gmultiset positive) :
  l !! i = Some x ->
  (multiplicity t x <= multiplicity t (fold_combine ∅ (⊎) l))%nat.
Proof.
  revert i. induction l as [|z l IH]; intros i Hx; [discriminate Hx|].
  rewrite tokens_total_cons, multiplicity_disj_union.
  destruct i as [|i]; simpl in Hx.
  - injection Hx as ->. lia.
  - specialize (IH i Hx). lia.
Qed.

Lemma multiplicity_total_two (t : positive) (l : list (gmultiset positive))
    (i j : nat) (x y : gmultiset positive) :
  i <> j -> l !! i = Some x -> l !! j = Some y ->
  (multiplicity t x + multiplicity t y <= multiplicity t (fold_combine ∅ (⊎) l))%nat.
Proof.
  revert i j. induction l as [|z l IH]; intros i j Hij Hx Hy; [discriminate Hx|].
  rewrite tokens_total_cons, multiplicity_disj_union.
  destruct i as [|i], j as [|j]; simpl in Hx, Hy.
  - contradiction.
  - injection Hx as ->. pose proof (multiplicity_total_one t l j y Hy). lia.
  - injection Hy as ->. pose proof (multiplicity_total_one t l i x Hx). lia.
  - assert (Hij' : i <> j) by congruence. specialize (IH i j Hij' Hx Hy). lia.
Qed.

(** C1 (amended): when the combine operation is associative and commutative
    with [T()] as its unit, then for every finite run of a collector with its
    handles (handles created and destroyed, sessions opened, copied, written
    through and closed, [Collect()] called any number of times):
    if no handle was destroyed with data left in its cells, the fold of all
    values written equals the fold of the values the [Collect()] calls
    returned, of what a [Collect()] called now returns, and of what is behind
    [Read()] in the live handles;
    if no session is open, then a [Collect()], one further session of every
    live handle and a second [Collect()] return what a [Collect()] called now
    returns and the fold of what is behind [Read()], after which nothing is
    pending and, no handle having been destroyed with data left, the fold of
    all values returned equals the fold of all values written.
    With values that name the units they are made of, no written unit is in
    two different [Collect()] results. *)
Theorem written_is_delivered_once :
  (forall (T : Type) (T0 : T) (combine : T -> T -> T),
      (forall a b c, combine (combine a b) c = combine a (combine b c)) ->
      (forall a b, combine a b = combine b a) ->
      (forall a, combine a T0 = a) ->
      forall (ops : list Op) (rcu : @ReverseRcu T) (os : list Outcome),
        run T0 combine (ReverseRcu_new T0) ops = Some (rcu, os) ->
        (nothing_left T0 os ->
         fold_combine T0 combine (written ops)
         = combine (combine (fold_combine T0 combine (returned os))
                            (fst (Collect T0 combine rcu)))
                   (fold_combine T0 combine (behind_Read rcu)))
        /\ (forall hs : list positive,
              no_session rcu ->
              (list_to_set hs : gset positive) = dom (threads_ rcu) ->
              exists (rcu' : @ReverseRcu T) (os' : list Outcome),
                run T0 combine (ReverseRcu_new T0) (ops ++ handshake hs)
                = Some (rcu', os ++ os')
                /\ returned os'
                   = [fst (Collect T0 combine rcu); fold_combine T0 combine (behind_Read rcu)]
                /\ fst (Collect T0 combine rcu') = T0
                /\ Forall (fun v => v = T0) (behind_Read rcu')
                /\ (nothing_left T0 os ->
                    fold_combine T0 combine (returned (os ++ os'))
                    = fold_combine T0 combine (written (ops ++ handshake hs)))))
  /\ (forall (ops : list Op) (rcu : @ReverseRcu (gmultiset positive)) (os : list Outcome),
         run ∅ (⊎) (ReverseRcu_new ∅) ops = Some (rcu, os) ->
         (forall t, (multiplicity t (fold_combine ∅ (⊎) (written ops)) <= 1)%nat) ->
         forall (i j : nat) (x y : gmultiset positive) (t : positive),
           i <> j -> returned os !! i = Some x -> returned os !! j = Some y ->
           t ∈ x -> t ∉ y).
Proof.
  split.
  - intros T T0 combine Ha Hc Hu ops rcu os Hrun. split.
    + apply (run_delivers T0 combine Ha Hc Hu ops rcu os Hrun).
    + intros hs Hrest Hhs.
      destruct (handshake_delivers T0 combine Ha Hc Hu ops rcu os hs Hrun Hrest Hhs)
        as (rcu' & os' & Hrun' & Hret & Hleft' & Hnext & Hread).
      exists rcu', os'. repeat split; try assumption.
      intros Hleft.
      assert (Hleft2 : nothing_left T0 (os ++ os')).
      { unfold nothing_left in *.
        replace (left_behind (os ++ os')) with (left_behind os ++ left_behind os')
          by (symmetry; apply omap_app).
        rewrite Hleft', app_nil_r. exact Hleft. }
      rewrite (run_delivers T0 combine Ha Hc Hu _ _ _ Hrun' Hleft2), Hnext.
      rewrite (total_all_default T0 combine Ha Hc Hu _ Hread).
      rewrite Hu, Hu. reflexivity.
  - intros ops rcu os Hrun Hunits i j x y t Hij Hx Hy Htx Hty.
    pose proof (run_accounting ∅ (⊎) tokens_assoc tokens_comm tokens_unit ops rcu os Hrun) as Hacc.
    specialize (Hunits t). rewrite Hacc, !multiplicity_disj_union in Hunits.
    pose proof (multiplicity_total_two t (returned os) i j x y Hij Hx Hy) as Htwo.
    pose proof (proj1 (elem_of_multiplicity t x) Htx) as Hx1.
    pose proof (proj1 (elem_of_multiplicity t y) Hty) as Hy1. lia.
Qed.

(** ** The scenarios on [int] *)

Lemma Z_add_assoc' (a b c : Z) : a + b + c = a + (b + c).
Proof. lia. Qed.

(** C1, as stated, fails.  One handle writes 5 and then 7 in two sessions and
    [Collect()] is called twice: the calls return 5 and 0, whose fold is not
    the fold 12 of what was written.  When the handle is destroyed instead,
    the only [Collect()] returns 5 and leaves a collector with no handle and
    an accumulator of 0, so that the 7, written before that call returned, is
    in no later result either. *)
Lemma exactly_once_counterexample :
  written two_sessions = [5; 7]
  /\ collect_results two_sessions = Some [5; 0]
  /\ fold_combine 0 Z.add [5; 0] <> fold_combine 0 Z.add (written two_sessions)
  /\ written two_sessions_destroyed = [5; 7]
  /\ run_int two_sessions_destroyed
     = Some (ReverseRcu_new 0,
             [Silent; Silent; Silent; Silent; Silent; Silent; Silent;
              LeftBehind 7; Returned 5])
  /\ fst (Collect 0 Z.add (ReverseRcu_new 0)) = 0.
Proof.
  repeat split; try (vm_compute; reflexivity).
  vm_compute. intros H. discriminate H.
Qed.

Lemma written_is_delivered_once_witness :
  (exists (rcu rcu' : @ReverseRcu Z) (os os' : list Outcome),
      run 0 Z.add (ReverseRcu_new 0) pending_run = Some (rcu, os)
      /\ returned os = [8]
      /\ left_behind os = [0]
      /\ behind_Read rcu = [7]
      /\ fold_combine 0 Z.add (written pending_run)
         = fold_combine 0 Z.add [8] + fst (Collect 0 Z.add rcu) + fold_combine 0 Z.add [7]
      /\ run 0 Z.add (ReverseRcu_new 0) (pending_run ++ handshake [1%positive])
         = Some (rcu', os ++ os')
      /\ returned os' = [0; 7]
      /\ fold_combine 0 Z.add (returned (os ++ os'))
         = fold_combine 0 Z.add (written (pending_run ++ handshake [1%positive])))
  /\ (exists rcu os,
        run ∅ (⊎) (ReverseRcu_new ∅) two_tokens = Some (rcu, os)
        /\ returned os = [{[+ 1%positive +]}; {[+ 2%positive +]}; ∅]
        /\ 1%positive ∉ ({[+ 2%positive +]} : gmultiset positive)).
Proof.
  split.
  - destruct (run 0 Z.add (ReverseRcu_new 0) pending_run) as [[rcu os]|] eqn:Hrun;
      [|vm_compute in Hrun; discriminate Hrun].
    assert (Hos : returned os = [8] /\ left_behind os = [0] /\ behind_Read rcu = [7]
                  /\ fst (Collect 0 Z.add rcu) = 0).
    { vm_compute in Hrun. injection Hrun as <- <-. vm_compute. repeat split; reflexivity. }
    destruct Hos as (Hret & Hleft & Hread & Hnow).
    assert (Hnone : nothing_left 0 os).
    { unfold nothing_left. rewrite Hleft. repeat constructor. }
    assert (Hrest : no_session rcu).
    { vm_compute in Hrun. injection Hrun as <- _.
      apply (bool_decide_unpack _). vm_compute. exact I. }
    assert (Hhs : (list_to_set [1%positive] : gset positive) = dom (threads_ rcu)).
    { vm_compute in Hrun. injection Hrun as <- _.
      apply (bool_decide_unpack _). vm_compute. exact I. }
    destruct (proj1 written_is_delivered_once Z 0 Z.add Z_add_assoc' Z.add_comm Z.add_0_r
                pending_run rcu os Hrun) as [Hacc Hdel].
    destruct (Hdel [1%positive] Hrest Hhs) as (rcu' & os' & Hrun' & Hret' & _ & _ & Hall).
    exists rcu, rcu', os, os'.
    split; [reflexivity|]. split; [exact Hret|]. split; [exact Hleft|]. split; [exact Hread|].
    split; [rewrite <- Hret, <- Hread; exact (Hacc Hnone)|].
    split; [exact Hrun'|].
    split; [rewrite Hret', Hread, Hnow; reflexivity|].
    exact (Hall Hnone).
  - destruct (run ∅ (⊎) (ReverseRcu_new ∅) two_tokens) as [[rcu os]|] eqn:Hrun;
      [|vm_compute in Hrun; discriminate Hrun].
    exists rcu, os. split; [reflexivity|].
    assert (Hos : returned os = [{[+ 1%positive +]}; {[+ 2%positive +]}; ∅]).
    { vm_compute in Hrun. injection Hrun as _ <-. vm_compute. reflexivity. }
    split; [exact Hos|].
    apply (proj2 written_is_delivered_once two_tokens rcu os Hrun) with (i := 0%nat) (j := 1%nat)
      (x := {[+ 1%positive +]}).
    + intros t. change (written two_tokens) with [({[+ 1%positive +]} : gmultiset positive); {[+ 2%positive +]}].
      rewrite !tokens_total_cons, !multiplicity_disj_union, !multiplicity_singleton.
      change (fold_combine ∅ (⊎) []) with (∅ : gmultiset positive).
      rewrite multiplicity_empty. repeat case_decide; subst; try lia; discriminate.
    + lia.
    + rewrite Hos. reflexivity.
    + rewrite Hos. reflexivity.
    + apply elem_of_multiplicity. rewrite multiplicity_singleton_eq. lia.
Defined.

(** C2, as stated, fails: with 5 and 7 written in two separate sessions of one
    handle, the first [Collect()] returns 5, not 12. *)
Lemma two_sessions_counterexample :
  collect_results two_sessions = Some [5; 0]
  /\ collect_results two_sessions <> Some [12; 0].
Proof.
  split; [vm_compute; reflexivity|].
  vm_compute. intros H. discriminate H.
Qed.

(** C2 (amended): on [int] with addition, one handle that writes 5 and then 7
    in two separate sessions: the first [Collect()] returns 5 and the one
    right after it returns 0; the 7 is still behind the reference the
    sessions of the handle get, and the [Collect()] that follows the next
    session of the handle returns it.  Two handles that each write 3 in one
    session and are destroyed before any [Collect()]: the next [Collect()]
    returns 6. *)
Theorem int_scenarios :
  collect_results two_sessions = Some [5; 0]
  /\ (exists rcu os l,
        run_int two_sessions = Some (rcu, os)
        /\ threads_ rcu !! 1%positive = Some l
        /\ Snapshot_deref l = 7)
  /\ collect_results (two_sessions ++ session 1 0 ++ [DoCollect]) = Some [5; 0; 7]
  /\ collect_results two_handles = Some [6].
Proof.
  split; [vm_compute; reflexivity|].
  split; [|split; vm_compute; reflexivity].
  destruct (run_int two_sessions) as [[rcu os]|] eqn:Hrun; [|vm_compute in Hrun; discriminate Hrun].
  exists rcu, os.
  destruct (threads_ rcu !! 1%positive) as [l|] eqn:Hl.
  - exists l. repeat split.
    vm_compute in Hrun. injection Hrun as <- _. vm_compute in Hl. injection Hl as <-.
    reflexivity.
  - exfalso. vm_compute in Hrun. injection Hrun as <- _. vm_compute in Hl. discriminate Hl.
Qed.

(** C7, as stated, fails on the handle of the scenario above, which has
    written 5 and 7 in two sessions: [Local::Collect()] returns 5, so it did
    not return what was behind [Read()], which holds 7 before and after the
    call; that 7 is not published either, since the second call returns 0 and
    leaves it where it was.  Of the 12 pending only 5 came out. *)
Lemma Local_Collect_counterexample :
  let l := th_local after_two_sessions in
  let l1 := snd (Local_Collect 0 l) in
  let l2 := snd (Local_Collect 0 l1) in
  Read (local_rcu_ l) = 7
  /\ fst (Local_Collect 0 l) = 5
  /\ Read (local_rcu_ l1) = 7
  /\ get_cell (values (local_rcu_ l1)) (relay_index (local_rcu_ l1)) = 0
  /\ fst (Local_Collect 0 l1) = 0
  /\ Read (local_rcu_ l2) = 7.
Proof. vm_compute. repeat split; reflexivity. Qed.

(** ** Instances of the general results on [int] *)

Lemma reentrancy_stability_witness :
  exists t t' : @Thread Z,
    snap_run 0 Z.add (Thread_new 0) [SWrite 1%positive] = Some t
    /\ snap_run 0 Z.add t
         [SCopy 1%positive 2%positive; SAdd 2%positive 5; SCollect;
          SDestroy 2%positive; SMove 1%positive 3%positive; SDestroy 3%positive]
       = Some t'
    /\ Snapshot_ref (th_local t') = Snapshot_ref (th_local t).
Proof.
  eexists. eexists.
  split; [vm_compute; reflexivity|].
  split; [vm_compute; reflexivity|].
  apply (proj2 (proj2 (reentrancy_stability 0 Z.add))
           [SWrite 1%positive]
           [SCopy 1%positive 2%positive; SAdd 2%positive 5; SCollect;
            SDestroy 2%positive; SMove 1%positive 3%positive; SDestroy 3%positive]
           _ _ 1%positive).
  - vm_compute. reflexivity.
  - vm_compute. reflexivity.
  - rewrite !not_elem_of_cons. repeat split; try discriminate. apply not_elem_of_nil.
  - vm_compute. reflexivity.
Defined.

Lemma depth_counts_live_snapshots_witness :
  exists t t' : @Thread Z,
    snap_run 0 Z.add (Thread_new 0)
      [SWrite 1%positive; SMove 1%positive 2%positive; SDestroy 2%positive] = Some t
    /\ snapshot_depth_ (th_local t) = Z.of_nat (size (th_alive t))
    /\ snap_step 0 Z.add t (SDestroy 1%positive) = Some (t', true)
    /\ (true = true <-> (exists s : positive, @SDestroy Z 1%positive = SDestroy s)
                        /\ th_alive t' = ∅).
Proof.
  eexists. eexists.
  split; [vm_compute; reflexivity|].
  pose proof (proj2 (proj2 (depth_counts_live_snapshots 0 Z.add))
                [SWrite 1%positive; SMove 1%positive 2%positive; SDestroy 2%positive]
                _ ltac:(vm_compute; reflexivity)) as (Hd & _ & Hstep).
  split; [exact Hd|].
  split; [vm_compute; reflexivity|].
  apply Hstep. vm_compute. reflexivity.
Defined.

Lemma Local_Collect_contract_witness :
  (Read (local_rcu_ (snd (Local_Collect 0 (th_local after_two_sessions))))
   = Read (local_rcu_ (th_local after_two_sessions))
   /\ Update (local_rcu_ (snd (Local_Collect 0 (th_local after_two_sessions)))) = 0)
  /\ fst (Local_Collect 0 (snd (Local_Collect 0 (th_local after_two_sessions)))) = 0.
Proof.
  split.
  - destruct (proj1 (Local_Collect_contract 0 Z.add) (th_local after_two_sessions))
      as (_ & _ & _ & _ & _ & _ & _ & H).
    apply H. vm_compute. reflexivity.
  - apply (proj2 (Local_Collect_contract 0 Z.add)
             [SWrite 1%positive; SAdd 1%positive 5; SDestroy 1%positive;
              SWrite 1%positive; SAdd 1%positive 7; SDestroy 1%positive]
             after_two_sessions).
    vm_compute. reflexivity.
Defined.

Lemma fresh_handle_visible_witness :
  threads_ (ReverseRcu_new 0) !! 1%positive = None
  /\ threads_ (Local_ctor 0 1%positive (ReverseRcu_new 0)) !! 1%positive
     = Some (Local_init 0)
  /\ fst (Local_Collect 0 (Local_init 0)) = 0
  /\ contributions 0 (Local_ctor 0 1%positive (ReverseRcu_new 0))
     ≡ₚ 0 :: contributions 0 (ReverseRcu_new 0).
Proof.
  assert (Hfresh : threads_ (ReverseRcu_new 0) !! 1%positive = None)
    by (vm_compute; reflexivity).
  destruct (fresh_handle_visible 0 Z.add (ReverseRcu_new 0) 1%positive Hfresh)
    as (_ & H1 & _ & _ & _ & H2 & H3 & _).
  repeat split; assumption.
Defined.

(** * Further properties *)

(** ** The collector between calls *)

Section CollectorRunsFacts.
Context {T : Type}.
Variable T0 : T.
Variable combine : T -> T -> T.

Lemma fold_left_all_default (l : list T) :
  combine T0 T0 = T0 -> Forall (fun x => x = T0) l -> fold_left combine l T0 = T0.
Proof.
  intros H00 Hall. induction Hall as [|x l -> _ IH]; simpl; [reflexivity|].
  rewrite H00. exact IH.
Qed.

(** X1: whatever a collector and its handles did before, two [Collect()]
    calls in a row give [T()] the second time: the first call leaves the
    accumulator and the collector's side of every registered handle at
    [T()], and the second finds nothing else.  ([T() += T()] is [T()].) *)
Theorem Collect_twice_returns_default (ops : list Op) (rcu : @ReverseRcu T)
    (os : list Outcome) :
  combine T0 T0 = T0 ->
  run T0 combine (ReverseRcu_new T0) ops = Some (rcu, os) ->
  value_ (snd (Collect T0 combine rcu)) = T0
  /\ handles_clear T0 (snd (Collect T0 combine rcu))
  /\ fst (Collect T0 combine (snd (Collect T0 combine rcu))) = T0.
Proof.
  intros H00 Hrun.
  assert (Hc : handles_clear T0 rcu)
    by (eapply run_handles_clear; [apply new_handles_clear | exact Hrun]).
  assert (Hc1 : handles_clear T0 (snd (Collect T0 combine rcu))).
  { apply (step_handles_clear T0 combine rcu _ DoCollect (Returned (fst (Collect T0 combine rcu))) Hc).
    cbn [step]. destruct (Collect T0 combine rcu); reflexivity. }
  split; [reflexivity|]. split; [exact Hc1|].
  unfold Collect at 1. cbn [fst]. change (value_ _) with T0.
  apply fold_left_all_default; [exact H00|].
  unfold contributions. apply Forall_fmap, Forall_forall. intros [h l] Hin.
  apply elem_of_map_to_list in Hin. simpl.
  destruct (Hc1 h l Hin) as [Hd Hu].
  apply roles_distinct_spec in Hd. destruct Hd as (Hur & Hux & Hrx).
  set (rcu1 := snd (Collect T0 combine rcu)) in *.
  assert (Hrel : get_cell (values (local_rcu_ l)) (relay_index (local_rcu_ l)) = T0).
  { unfold rcu1, Collect in Hin. simpl in Hin. rewrite lookup_fmap in Hin.
    destruct (threads_ rcu !! h) as [l0|] eqn:Hl0; simpl in Hin; [|discriminate Hin].
    injection Hin as <-.
    destruct (Hc h l0 Hl0) as [Hd0 Hu0].
    apply roles_distinct_spec in Hd0. destruct Hd0 as (Hur0 & Hux0 & Hrx0).
    unfold Local_Collect, Update in *. simpl.
    rewrite get_set_other by auto. exact Hu0. }
  unfold Local_Collect, Update. simpl. exact Hrel.
Qed.

(** X2: [Collect()] does not disturb the sessions of any thread.  In every
    state a collector reaches, the call keeps the same handles registered,
    and for each of them the depth counter, the identity of the reference a
    [Snapshot] dereferences to and the value behind it are what they were. *)
Theorem Collect_leaves_sessions_alone (ops : list Op) (rcu : @ReverseRcu T)
    (os : list Outcome) (h : positive) (l : @Local T) :
  run T0 combine (ReverseRcu_new T0) ops = Some (rcu, os) ->
  threads_ rcu !! h = Some l ->
  dom (threads_ (snd (Collect T0 combine rcu))) = dom (threads_ rcu)
  /\ exists l' : @Local T,
       threads_ (snd (Collect T0 combine rcu)) !! h = Some l'
       /\ snapshot_depth_ l' = snapshot_depth_ l
       /\ Snapshot_ref l' = Snapshot_ref l
       /\ Snapshot_deref l' = Snapshot_deref l.
Proof.
  intros Hrun Hl.
  assert (Hc : handles_clear T0 rcu)
    by (eapply run_handles_clear; [apply new_handles_clear | exact Hrun]).
  split.
  - unfold Collect. simpl. apply dom_fmap_L.
  - exists (snd (Local_Collect T0 l)). split.
    + unfold Collect. simpl. rewrite lookup_fmap, Hl. reflexivity.
    + destruct (Hc h l Hl) as [Hd _].
      destruct (Local_Collect_clear T0 l Hd) as [_ Hread].
      split; [reflexivity|]. split; [reflexivity|]. exact Hread.
Qed.

(** X3: a handle is registered exactly from its construction to its
    destruction: after every run the registered addresses are those
    constructed and not destroyed since. *)
Theorem registered_while_alive (ops : list Op) (rcu rcu' : @ReverseRcu T)
    (os : list Outcome) :
  run T0 combine rcu ops = Some (rcu', os) ->
  dom (threads_ rcu') = live_handles ops (dom (threads_ rcu)).
Proof.
  revert rcu os. induction ops as [|op ops IH]; intros rcu os Hrun; simpl in Hrun.
  - injection Hrun as <- _. reflexivity.
  - destruct (step T0 combine rcu op) as [[rcu1 o]|] eqn:Hstep; simpl in Hrun;
      [|discriminate Hrun].
    destruct (run T0 combine rcu1 ops) as [[rcu2 os2]|] eqn:Hrun2; simpl in Hrun;
      [|discriminate Hrun].
    injection Hrun as <- _. rewrite (IH _ _ Hrun2). clear IH Hrun2.
    assert (Hw : forall h f rcu1, with_local h rcu f = Some rcu1 ->
                                  dom (threads_ rcu1) = dom (threads_ rcu)).
    { intros h f r1 Hw. unfold with_local in Hw.
      destruct (threads_ rcu !! h) as [l|] eqn:Hl; simpl in Hw; [|discriminate Hw].
      destruct (f l) as [l'|]; simpl in Hw; [|discriminate Hw].
      injection Hw as <-. simpl. apply dom_insert_lookup_L. rewrite Hl. eexists; reflexivity. }
    destruct op as [h|h|h|h|h v|h|]; cbn [step] in Hstep; cbn [live_handles].
    + destruct (threads_ rcu !! h) eqn:Hl; [discriminate Hstep|].
      injection Hstep as <- _. unfold Local_ctor. simpl. rewrite dom_insert_L. reflexivity.
    + destruct (threads_ rcu !! h) as [l|] eqn:Hl; simpl in Hstep; [|discriminate Hstep].
      destruct (has_session l); [discriminate Hstep|].
      unfold Local_dtor in Hstep. rewrite Hl in Hstep. simpl in Hstep.
      injection Hstep as <- _. simpl. rewrite dom_delete_L. reflexivity.
    + destruct (with_local h rcu _) as [r1|] eqn:Hw1; simpl in Hstep; [|discriminate Hstep].
      injection Hstep as <- _. rewrite (Hw _ _ _ Hw1). reflexivity.
    + destruct (with_local h rcu _) as [r1|] eqn:Hw1; simpl in Hstep; [|discriminate Hstep].
      injection Hstep as <- _. rewrite (Hw _ _ _ Hw1). reflexivity.
    + destruct (with_local h rcu _) as [r1|] eqn:Hw1; simpl in Hstep; [|discriminate Hstep].
      injection Hstep as <- _. rewrite (Hw _ _ _ Hw1). reflexivity.
    + destruct (with_local h rcu _) as [r1|] eqn:Hw1; simpl in Hstep; [|discriminate Hstep].
      injection Hstep as <- _. rewrite (Hw _ _ _ Hw1). reflexivity.
    + unfold Collect in Hstep. injection Hstep as <- _. simpl.
      rewrite dom_fmap_L. reflexivity.
Qed.
End CollectorRunsFacts.

(** ** What a handle hands over *)

Section Delivery.
Context {T : Type}.
Variable T0 : T.
Variable combine : T -> T -> T.

Lemma set_cell_set_cell (s : Slots T) (i : Index) (a b : T) :
  set_cell (set_cell s i a) i b = set_cell s i b.
Proof. destruct i; reflexivity. Qed.

Lemma set_cell_get_cell (s : Slots T) (i : Index) :
  set_cell s i (get_cell s i) = s.
Proof. destruct s, i; reflexivity. Qed.

(** The stores of a session all go to the cell behind [Read()]. *)
Lemma fold_Snapshot_add (vs : list T) (l : @Local T) :
  fold_left (Snapshot_add combine) vs l
  = mkLocal (snapshot_depth_ l)
      (set_Read (local_rcu_ l) (fold_left combine vs (Read (local_rcu_ l)))).
Proof.
  revert l. induction vs as [|v vs IH]; intros l; simpl.
  - destruct l as [d [s u r x t]]. unfold set_Read, Read. simpl.
    rewrite set_cell_get_cell. reflexivity.
  - rewrite IH. unfold Snapshot_add, set_Read, Read. simpl.
    rewrite get_set_same, set_cell_set_cell. reflexivity.
Qed.

(** X4: what a thread has behind its session reference comes out with the
    [Collect()] that follows its next session.  For a handle with no session
    open: after one [Local::Collect()], a session that adds [v1 ... vn] and
    ends, and a second [Local::Collect()], the second call returns what was
    behind [Read()] before the first call with [v1 ... vn] combined into it,
    and the thread's next session starts on a cell holding [T()]. *)
Theorem session_after_collect_is_delivered (l : @Local T) (vs : list T) :
  collector_side_clear T0 l ->
  snapshot_depth_ l = 0 ->
  let l2 := write_session combine (snd (Local_Collect T0 l)) vs in
  fst (Local_Collect T0 l2) = fold_left combine vs (Snapshot_deref l)
  /\ Snapshot_deref l2 = T0
  /\ snapshot_depth_ l2 = 0
  /\ collector_side_clear T0 l2.
Proof.
  intros [Hd Hu] Hdepth. cbv zeta.
  pose proof Hd as Hd'. apply roles_distinct_spec in Hd'. destruct Hd' as (Hur & Hux & Hrx).
  pose proof (not_eq_sym Hur) as Hru. pose proof (not_eq_sym Hux) as Hxu.
  pose proof (not_eq_sym Hrx) as Hxr.
  unfold write_session, Write, Snapshot_ctor. rewrite fold_Snapshot_add.
  destruct l as [d [s u r x t]]. simpl in *. subst d.
  unfold Snapshot_dtor, Local_Collect, Snapshot_deref, collector_side_clear,
    TryRead, Read, Update in *. simpl in *.
  repeat split.
  - rewrite get_set_same, get_set_other by auto. reflexivity.
  - rewrite get_set_other by auto. rewrite get_set_other by auto. exact Hu.
  - apply roles_distinct_spec. simpl. repeat split; auto.
  - rewrite get_set_other by auto. apply get_set_same.
Qed.

(** X5: a session that ends when nothing is staged (no [Collect()] since the
    thread's last rotation) keeps its data.  The reference of the next
    session is the same, the values are still behind it and later sessions
    add to them, and a [Local::Collect()] returns what it would have returned
    before the session. *)
Theorem session_without_collect_stays (l : @Local T) (vs ws : list T) :
  roles_distinct (local_rcu_ l) = true ->
  snapshot_depth_ l = 0 ->
  relay (local_rcu_ l) = Free ->
  Snapshot_ref (write_session combine l vs) = Snapshot_ref l
  /\ Snapshot_deref (write_session combine l vs) = fold_left combine vs (Snapshot_deref l)
  /\ fst (Local_Collect T0 (write_session combine l vs)) = fst (Local_Collect T0 l)
  /\ Snapshot_deref (write_session combine (write_session combine l vs) ws)
     = fold_left combine (vs ++ ws) (Snapshot_deref l).
Proof.
  intros Hd Hdepth Hfree.
  apply roles_distinct_spec in Hd. destruct Hd as (Hur & Hux & Hrx).
  assert (Hone : forall (l0 : @Local T) (us : list T),
             snapshot_depth_ l0 = 0 -> relay (local_rcu_ l0) = Free ->
             write_session combine l0 us
             = mkLocal 0 (set_Read (local_rcu_ l0)
                            (fold_left combine us (Read (local_rcu_ l0))))).
  { intros l0 us Hd0 Hf0. unfold write_session, Write, Snapshot_ctor.
    rewrite fold_Snapshot_add. unfold Snapshot_dtor, TryRead. simpl.
    rewrite Hd0, Hf0. reflexivity. }
  rewrite (Hone l vs Hdepth Hfree).
  split; [reflexivity|].
  split; [unfold Snapshot_deref, Read; simpl; apply get_set_same|].
  split.
  - unfold Local_Collect, Update. simpl. apply get_set_other. exact Hrx.
  - rewrite (Hone (mkLocal 0 (set_Read (local_rcu_ l)
                                (fold_left combine vs (Read (local_rcu_ l))))) ws eq_refl Hfree).
    unfold Snapshot_deref, Read. simpl. rewrite !get_set_same.
    rewrite fold_left_app. reflexivity.
Qed.
End Delivery.

(** ** The order of the loop, and handles destroyed before a collect *)

Section CollectOrder.
Context {T : Type}.
Variable T0 : T.
Variable combine : T -> T -> T.
Hypothesis combine_assoc : forall a b c, combine (combine a b) c = combine a (combine b c).
Hypothesis combine_comm : forall a b, combine a b = combine b a.
Hypothesis combine_T0 : forall a, combine a T0 = a.

Lemma fold_left_Permutation (l1 l2 : list T) (a : T) :
  l1 ≡ₚ l2 -> fold_left combine l1 a = fold_left combine l2 a.
Proof.
  intros Hp.
  rewrite !(fold_left_combine T0 combine combine_assoc combine_comm combine_T0).
  f_equal. apply (total_Permutation T0 combine combine_assoc combine_comm combine_T0).
  exact Hp.
Qed.

Lemma fold_left_loop (order : list (positive * @Local T)) (a : T) :
  fold_left (fun acc kv => combine acc (fst (Local_Collect T0 kv.2))) order a
  = fold_left combine ((fun kv => fst (Local_Collect T0 kv.2)) <$> order) a.
Proof.
  revert a. induction order as [|kv order IH]; intros a; simpl; [reflexivity|].
  apply IH.
Qed.

(** X6: the value [Collect()] returns does not depend on the order in which
    the loop [for (Local* thread : threads_)] visits the registered handles,
    when the combine operation is associative and commutative with unit
    [T()]: every enumeration of the handles gives the same accumulated
    value. *)
Theorem Collect_any_order (rcu : @ReverseRcu T) (order : list (positive * @Local T)) :
  order ≡ₚ map_to_list (threads_ rcu) ->
  fold_left (fun acc kv => combine acc (fst (Local_Collect T0 kv.2))) order (value_ rcu)
  = fst (Collect T0 combine rcu).
Proof.
  intros Hp. rewrite fold_left_loop. unfold Collect, contributions. cbn [fst].
  apply fold_left_Permutation. rewrite Hp. reflexivity.
Qed.

(** X7: a handle destroyed before a [Collect()] is still counted: [~Local]
    folds into the accumulator what the loop of [Collect()] would have added
    for it, so the next [Collect()] returns the value it would have returned
    with the handle alive. *)
Theorem destroyed_handle_still_counted (rcu rcu' : @ReverseRcu T) (h : positive)
    (o : Outcome) :
  step T0 combine rcu (DeleteLocal h) = Some (rcu', o) ->
  fst (Collect T0 combine rcu') = fst (Collect T0 combine rcu)
  /\ threads_ rcu' !! h = None.
Proof.
  intros Hstep. cbn [step] in Hstep.
  destruct (threads_ rcu !! h) as [l|] eqn:Hl; simpl in Hstep; [|discriminate Hstep].
  destruct (has_session l); [discriminate Hstep|].
  unfold Local_dtor in Hstep. rewrite Hl in Hstep. simpl in Hstep.
  injection Hstep as <- _. split; [|simpl; apply lookup_delete_eq].
  unfold Collect, contributions. cbn [fst value_ threads_].
  change (fold_left combine
            ((fun kv : positive * @Local T => fst (Local_Collect T0 kv.2))
               <$> map_to_list (delete h (threads_ rcu)))
            (combine (value_ rcu) (Update (ForceUpdate (local_rcu_ l)))))
    with (fold_left combine
            ((fun kv : positive * @Local T => fst (Local_Collect T0 kv.2))
               <$> ((h, l) :: map_to_list (delete h (threads_ rcu))))
            (value_ rcu)).
  apply fold_left_Permutation.
  rewrite (map_to_list_delete (threads_ rcu) h l Hl). reflexivity.
Qed.
End CollectOrder.

Section RoundTrip.
Context {T : Type}.
Variable T0 : T.
Variable combine : T -> T -> T.
Hypothesis combine_T0 : forall a, combine a T0 = a.

(** X8: a handle constructed and destroyed right away leaves the collector
    as it was, when [T()] is a right unit of the combine operation: the
    registry is the same, the accumulator got [T()] combined into it, and the
    cells of the handle held nothing but [T()]. *)
Theorem construct_destroy_round_trip (rcu : @ReverseRcu T) (h : positive) :
  threads_ rcu !! h = None ->
  run T0 combine rcu [NewLocal h; DeleteLocal h] = Some (rcu, [Silent; LeftBehind T0]).
Proof.
  intros Hfresh.
  assert (H1 : step T0 combine rcu (NewLocal h) = Some (Local_ctor T0 h rcu, Silent)).
  { cbn [step]. rewrite Hfresh. reflexivity. }
  assert (H2 : step T0 combine (Local_ctor T0 h rcu) (DeleteLocal h)
               = Some (rcu, LeftBehind T0)).
  { cbn [step]. unfold Local_dtor, Local_ctor. cbn [threads_ value_].
    rewrite lookup_insert_eq. simpl.
    rewrite delete_insert_eq, (delete_id _ _ Hfresh).
    unfold stored, Update. simpl. rewrite !combine_T0. destruct rcu; reflexivity. }
  cbn [run]. rewrite H1. cbn [mbind option_bind run]. rewrite H2. reflexivity.
Qed.
End RoundTrip.

(** ** The tests, for any number of rounds *)

Lemma passes_app (es es' : list bool) : passes (es ++ es') = passes es && passes es'.
Proof. unfold passes. apply forallb_app. Qed.

Lemma alternating_body_inv (i : Z) (rcu : Rotator Z) :
  alternating_inv i rcu ->
  passes (fst (alternating_body tested_impl (i + 1) rcu)) = true
  /\ alternating_inv (i + 1) (snd (alternating_body tested_impl (i + 1) rcu)).
Proof.
  intros (Hd & Hfree & Hread & Hrel).
  pose proof Hd as Hd'. apply roles_distinct_spec in Hd'. destruct Hd' as (Hur & Hux & Hrx).
  pose proof (not_eq_sym Hur) as Hru. pose proof (not_eq_sym Hux) as Hxu.
  pose proof (not_eq_sym Hrx) as Hxr.
  destruct rcu as [s u r x t]. simpl in *. subst t.
  unfold alternating_body, alternating_inv, tested_impl, ThreeStateRcu.TriggerUpdate,
    ThreeStateRcu.TriggerRead, TryRead, Read, Update in *. simpl in *.
  rewrite !get_set_same. rewrite !(get_set_other _ u) by auto.
  rewrite Hread, Hrel. split.
  - unfold passes. simpl. rewrite ?Z.eqb_refl.
    replace (- (i - 1) =? - (i + 1 - 2)) with true by (symmetry; apply Z.eqb_eq; lia).
    replace (- i =? - (i + 1 - 1)) with true by (symmetry; apply Z.eqb_eq; lia).
    reflexivity.
  - split; [apply roles_distinct_spec; simpl; repeat split; auto|].
    split; [reflexivity|]. split; [reflexivity|].
    lia.
Qed.

Lemma alternating_loop_inv (n k : nat) (rcu : Rotator Z) :
  alternating_inv (Z.of_nat k) rcu ->
  passes (fst (alternating_loop tested_impl (map Z.of_nat (seq (S k) n)) rcu)) = true.
Proof.
  revert k rcu. induction n as [|n IH]; intros k rcu Hinv; [reflexivity|].
  cbn [seq map alternating_loop].
  replace (Z.of_nat (S k)) with (Z.of_nat k + 1) by lia.
  destruct (alternating_body_inv (Z.of_nat k) rcu Hinv) as [Hp Hinv'].
  destruct (alternating_body tested_impl (Z.of_nat k + 1) rcu) as [es rcu1].
  simpl in Hp, Hinv'.
  replace (Z.of_nat k + 1) with (Z.of_nat (S k)) in Hinv' by lia.
  specialize (IH (S k) rcu1 Hinv').
  destruct (alternating_loop tested_impl (map Z.of_nat (seq (S (S k)) n)) rcu1) as [es' rcu2].
  simpl in *. rewrite passes_app, Hp, IH. reflexivity.
Qed.

(** X9: the loop of test [AlternatingUpdatesAndReads] keeps its expectations
    for any number of rounds, not only the ten the test runs: each round
    finds the Relay [Free], [Read()] at what the previous round stored and the
    cell that [TriggerUpdate()] recycles at what the round before that
    stored. *)
Theorem alternating_rounds_pass (n : nat) :
  passes (alternating_rounds tested_impl n) = true.
Proof.
  unfold alternating_rounds. apply (alternating_loop_inv n 0).
  unfold alternating_inv. vm_compute. repeat split; reflexivity.
Qed.

(** X10: last write wins.  After any number of [Update() = v; TriggerUpdate()]
    rounds without a [TriggerRead()] in between, one [TriggerRead()] succeeds
    and [Read()] exposes the value of the last round; the earlier ones are
    never seen. *)
Theorem last_update_wins (rcu : Rotator Z) (vs : list Z) (v : Z) :
  fst (ThreeStateRcu.TriggerRead (publish_all (vs ++ [v]) rcu)) = true
  /\ Read (snd (ThreeStateRcu.TriggerRead (publish_all (vs ++ [v]) rcu))) = v.
Proof.
  unfold publish_all. rewrite fold_left_app. simpl.
  set (r := fold_left _ vs rcu).
  unfold ThreeStateRcu.TriggerRead, TryRead, ThreeStateRcu.TriggerUpdate, Read. simpl.
  split; [reflexivity|]. apply get_set_same.
Qed.

(** ** [Placement]: how much is allocated, and who frees it *)

Section PlacementFacts.
Variable size_bits : Z.
Variable sizeof_Placeholder : Z.
Variable sizeof_A : Z.
Variable offsetof_node : Z.

Lemma size_t_small (x : Z) : 0 <= x < 2 ^ size_bits -> size_t size_bits x = x.
Proof. intros H. unfold size_t. apply Z.mod_small. exact H. Qed.

Lemma AllocatedUnits_mod (n : Z) :
  0 < 2 ^ size_bits ->
  AllocatedUnits size_bits sizeof_Placeholder sizeof_A n
  = ((sizeof_Placeholder + n * sizeof_A - 1) mod 2 ^ size_bits) / sizeof_A.
Proof.
  intros HM. unfold AllocatedUnits, size_t. f_equal.
  set (M := 2 ^ size_bits) in *.
  rewrite Zminus_mod_idemp_l.
  replace ((sizeof_Placeholder + ((n - 1) mod M * sizeof_A) mod M) mod M + sizeof_A - 1)
    with ((sizeof_Placeholder + ((n - 1) mod M * sizeof_A) mod M) mod M + (sizeof_A - 1))
    by ring.
  rewrite Zplus_mod_idemp_l.
  replace (sizeof_Placeholder + ((n - 1) mod M * sizeof_A) mod M + (sizeof_A - 1))
    with (((n - 1) mod M * sizeof_A) mod M + (sizeof_Placeholder + sizeof_A - 1)) by ring.
  rewrite Zplus_mod_idemp_l.
  rewrite <- Zplus_mod_idemp_l, Zmult_mod_idemp_l, Zplus_mod_idemp_l.
  f_equal. ring.
Qed.

(** X11: as long as [sizeof(Placeholder) + size * sizeof(A) - 1] fits in a
    [size_t], [AllocatedUnits()] is [size + (sizeof(Placeholder) - 1) /
    sizeof(A)], also for [size = 0], where [size_ - 1] wraps around: counted
    in units of [sizeof(A)] that covers the placeholder with [size - 1] more
    elements behind it, with less than one element to spare. *)
Theorem AllocatedUnits_enough (n : Z) :
  0 < sizeof_A ->
  0 < sizeof_Placeholder ->
  0 <= n ->
  sizeof_Placeholder + n * sizeof_A - 1 < 2 ^ size_bits ->
  let units := AllocatedUnits size_bits sizeof_Placeholder sizeof_A n in
  units = n + (sizeof_Placeholder - 1) / sizeof_A
  /\ sizeof_Placeholder + (n - 1) * sizeof_A <= units * sizeof_A
  /\ units * sizeof_A < sizeof_Placeholder + n * sizeof_A.
Proof.
  intros HA HP Hn Hfit. cbv zeta.
  assert (HM : 0 < 2 ^ size_bits) by nia.
  rewrite (AllocatedUnits_mod n HM).
  rewrite Z.mod_small by nia.
  replace (sizeof_Placeholder + n * sizeof_A - 1)
    with (sizeof_Placeholder - 1 + n * sizeof_A) by ring.
  rewrite Z.div_add by lia.
  pose proof (Z.div_mod (sizeof_Placeholder - 1) sizeof_A ltac:(lia)) as Hdm.
  pose proof (Z.mod_pos_bound (sizeof_Placeholder - 1) sizeof_A HA) as Hb.
  repeat split; nia.
Qed.

Lemma allocate_deallocate (p n : Z) (heap heap' : gmap Z Z) :
  allocate p n heap = Some heap' ->
  p <> 0 /\ heap !! p = None /\ heap' !! p = Some n /\ deallocate p n heap' = Some heap.
Proof.
  unfold allocate, deallocate. case_decide as Hp; [discriminate|].
  destruct (heap !! p) eqn:Hh; [discriminate|]. intros [= <-].
  rewrite lookup_insert_eq, Z.eqb_refl, delete_insert_eq, (delete_id _ _ Hh).
  repeat split; auto.
Qed.

(** X12: [MakeUnique] and the deleter of the pointer it returns are a round
    trip on the heap.  When the allocator can hand out the block, the pointer
    is the node of that block, the block stays allocated after the local
    [Placement] of [MakeUnique] is gone, and calling the deleter on the
    pointer gives the block back with the unit count it was allocated with,
    leaving the heap as it was before. *)
Theorem MakeUnique_Deleter_round_trip (p length ptr deleter : Z) (heap heap1 : gmap Z Z) :
  MakeUnique size_bits sizeof_Placeholder sizeof_A offsetof_node p length heap
  = Some ((ptr, deleter), heap1) ->
  ptr = p + offsetof_node
  /\ heap !! p = None
  /\ heap1 !! p = Some (AllocatedUnits size_bits sizeof_Placeholder sizeof_A length)
  /\ Deleter_call size_bits sizeof_Placeholder sizeof_A offsetof_node deleter ptr heap1
     = Some heap.
Proof.
  unfold MakeUnique, Placement_alloc.
  destruct (allocate p _ heap) as [h1|] eqn:Hal; simpl; [|discriminate].
  intros [= <- <- <-].
  destruct (allocate_deallocate _ _ _ _ Hal) as (Hp & Hfresh & Hin & Hde).
  split; [reflexivity|]. split; [exact Hfresh|]. split; [exact Hin|].
  unfold Deleter_call, Placement_dtor, Placement_from, Node. simpl.
  replace (p + offsetof_node - offsetof_node) with p by ring.
  destruct (Z.eqb_spec p 0) as [->|_]; [contradiction|]. exact Hde.
Qed.

(** X13: moving a [Placement] moves the ownership of its block.  After
    [Placement b(std::move(a))] the destructor of [a] leaves the heap alone
    and the destructor of [b] frees the block, in either order, so that the
    block allocated for [a] is given back exactly once. *)
Theorem Placement_move_frees_once (p size : Z) (a : Placement) (heap heap1 : gmap Z Z) :
  Placement_alloc size_bits sizeof_Placeholder sizeof_A p size heap = Some (a, heap1) ->
  let '(b, a') := Placement_move a in
  Placement_dtor size_bits sizeof_Placeholder sizeof_A a' heap1 = Some heap1
  /\ Placement_dtor size_bits sizeof_Placeholder sizeof_A b heap1 = Some heap
  /\ Placement_dtor size_bits sizeof_Placeholder sizeof_A a' heap = Some heap
  /\ Placement_dtor size_bits sizeof_Placeholder sizeof_A b heap = None.
Proof.
  unfold Placement_alloc.
  destruct (allocate p _ heap) as [h1|] eqn:Hal; simpl; [|discriminate].
  intros [= <- <-].
  destruct (allocate_deallocate _ _ _ _ Hal) as (Hp & Hfresh & Hin & Hde).
  unfold Placement_dtor. simpl.
  destruct (Z.eqb_spec p 0) as [->|_]; [contradiction|].
  repeat split; try assumption.
  unfold deallocate. rewrite Hfresh. reflexivity.
Qed.
End PlacementFacts.

(** ** [CopyOnWrite] *)

Section CopyOnWriteFacts.
Context {T : Type}.
Variable Refcount : Type.
Variable Refcount_new : Refcount.
Variable Inc : Refcount -> Refcount.
Variable Dec : Refcount -> bool * Refcount.
Variable IsOne : Refcount -> bool.

(** X14: copy on write.  [as_mutable()] on an object whose counter is one
    returns a reference into the object's own cell and leaves the heap as it
    is.  On an object whose counter is not one it makes the object point to a
    fresh cell holding a copy of the value, and an assignment through the
    returned reference is seen by that object alone: whatever any
    [CopyOnWrite] could read before the call, it reads after the assignment. *)
Theorem as_mutable_copies_when_shared (q p : positive) (c : Refcounted T Refcount)
    (heap : gmap positive (Refcounted T Refcount)) (v : T) :
  heap !! p = Some c ->
  (IsOne (refcount c) = true ->
     as_mutable Refcount_new Dec IsOne q (Some p) heap = Some (Some p, heap))
  /\ (IsOne (refcount c) = false ->
      heap !! q = None ->
      exists heap1 heap2,
        as_mutable Refcount_new Dec IsOne q (Some p) heap = Some (Some q, heap1)
        /\ CopyOnWrite_deref (Some q) heap1 = Some (nested c)
        /\ store_nested (Some q) v heap1 = Some heap2
        /\ CopyOnWrite_deref (Some q) heap2 = Some v
        /\ forall (other : option positive) (x : T),
             CopyOnWrite_deref other heap = Some x ->
             CopyOnWrite_deref other heap2 = Some x).
Proof.
  intros Hp. split.
  - intros Hone. unfold as_mutable. simpl. rewrite Hp. simpl. rewrite Hone. reflexivity.
  - intros Hshared Hq.
    exists (<[q := mkRefcounted Refcount_new (nested c)]> heap).
    exists (<[q := mkRefcounted Refcount_new v]>
              (<[q := mkRefcounted Refcount_new (nested c)]> heap)).
    unfold as_mutable, CopyOnWrite_in_place, CopyOnWrite_dtor, CopyOnWrite_Release,
      CopyOnWrite_deref, store_nested. simpl.
    rewrite Hp. simpl. rewrite Hshared, Hq. simpl. rewrite !lookup_insert_eq. simpl.
    repeat split.
    intros [p'|] x; simpl; [|discriminate].
    destruct (decide (p' = q)) as [->|Hne].
    + rewrite Hq. discriminate.
    + rewrite !lookup_insert_ne by auto. auto.
Qed.

Lemma cow_step_keeps (heap heap' : gmap positive (Refcounted T Refcount))
    (c : CowCall) (p : positive) :
  cow_step Refcount_new Inc Dec IsOne heap c = Some heap' ->
  is_Some (heap !! p) -> is_Some (heap' !! p).
Proof.
  intros Hstep Hp.
  assert (Hins : forall (k : positive) (x : Refcounted T Refcount)
                        (h : gmap positive (Refcounted T Refcount)),
             is_Some (h !! p) -> is_Some (<[k := x]> h !! p)).
  { intros k x h Hh. rewrite lookup_insert. case_decide; [eexists; reflexivity | exact Hh]. }
  assert (Ham : forall q this h1 r,
             as_mutable Refcount_new Dec IsOne q this heap = Some (r, h1) ->
             is_Some (h1 !! p)).
  { intros q this h1 r Ham. unfold as_mutable in Ham.
    destruct this as [p0|]; simpl in Ham; [|discriminate Ham].
    destruct (heap !! p0) as [c0|]; simpl in Ham; [|discriminate Ham].
    destruct (IsOne (refcount c0)).
    - injection Ham as _ <-. exact Hp.
    - unfold CopyOnWrite_in_place in Ham. destruct (heap !! q); simpl in Ham;
        [discriminate Ham|]. injection Ham as _ <-. apply Hins. exact Hp. }
  destruct c as [p0 v|that|that|this|q this|q this v]; simpl in Hstep.
  - unfold CopyOnWrite_in_place in Hstep. destruct (heap !! p0); simpl in Hstep;
      [discriminate Hstep|]. injection Hstep as <-. apply Hins. exact Hp.
  - unfold CopyOnWrite_copy in Hstep. destruct that as [p0|]; simpl in Hstep;
      [|discriminate Hstep].
    destruct (heap !! p0); simpl in Hstep; [|discriminate Hstep].
    injection Hstep as <-. apply Hins. exact Hp.
  - injection Hstep as <-. exact Hp.
  - injection Hstep as <-. exact Hp.
  - destruct (as_mutable _ _ _ q this heap) as [[r h1]|] eqn:Ham1; simpl in Hstep;
      [|discriminate Hstep].
    injection Hstep as <-. apply (Ham q this h1 r Ham1).
  - destruct (as_mutable _ _ _ q this heap) as [[r h1]|] eqn:Ham1; simpl in Hstep;
      [|discriminate Hstep].
    unfold store_nested in Hstep. destruct r as [p1|]; simpl in Hstep; [|discriminate Hstep].
    destruct (h1 !! p1); simpl in Hstep; [|discriminate Hstep].
    injection Hstep as <-. apply Hins. apply (Ham q this h1 (Some p1) Ham1).
Qed.

(** X15: no sequence of constructions, copies, moves, [as_mutable()] calls,
    assignments through the returned reference and destructions takes a
    [Refcounted] object off the heap: [~CopyOnWrite] calls [Release(nullptr)],
    which does not touch the counter of the object it held, so every cell
    that was allocated is still allocated afterwards, whatever the counter
    operations do. *)
Theorem CopyOnWrite_never_frees (cs : list CowCall)
    (heap heap' : gmap positive (Refcounted T Refcount)) (p : positive) :
  cow_run Refcount_new Inc Dec IsOne heap cs = Some heap' ->
  is_Some (heap !! p) ->
  is_Some (heap' !! p)
  /\ forall this : option positive,
       CopyOnWrite_dtor Dec this heap' = Some (None, heap').
Proof.
  intros Hrun Hp. split; [|intros this; reflexivity].
  revert heap Hrun Hp. induction cs as [|c cs IH]; intros heap Hrun Hp; simpl in Hrun.
  - injection Hrun as <-. exact Hp.
  - destruct (cow_step _ _ _ _ heap c) as [h1|] eqn:Hstep; simpl in Hrun;
      [|discriminate Hrun].
    apply (IH h1 Hrun). eapply cow_step_keeps; eassumption.
Qed.

(** X17: move assignment [x = std::move(y)] hands the pointer of [y] over to
    [x] and leaves [y] null, but it is the counter of the cell of [y] that
    goes through [Dec()], while the cell [x] held is left as it is, counter
    included.  When [Dec()] answers false, [x] reads what [y] read; when it
    answers true the cell is deleted and [x] is left pointing to it, so that
    [*x] has no result. *)
Theorem move_assign_releases_the_source (this : option positive) (q : positive)
    (c : Refcounted T Refcount) (heap : gmap positive (Refcounted T Refcount)) :
  heap !! q = Some c ->
  exists heap' : gmap positive (Refcounted T Refcount),
    CopyOnWrite_move_assign Dec this (Some q) heap = Some (Some q, None, heap')
    /\ (forall p : positive, p <> q -> heap' !! p = heap !! p)
    /\ (fst (Dec (refcount c)) = false ->
          CopyOnWrite_deref (Some q) heap' = CopyOnWrite_deref (Some q) heap)
    /\ (fst (Dec (refcount c)) = true ->
          CopyOnWrite_deref (Some q) heap' = None).
Proof.
  intros Hq. unfold CopyOnWrite_move_assign, CopyOnWrite_Release, CopyOnWrite_deref.
  simpl. rewrite Hq. simpl. destruct (Dec (refcount c)) as [zero rc]. simpl.
  destruct zero; simpl; eexists; (split; [reflexivity|]).
  - split; [intros p Hp; apply lookup_delete_ne; auto|].
    split; [discriminate|]. intros _. rewrite lookup_delete_eq. reflexivity.
  - split; [intros p Hp; apply lookup_insert_ne; auto|].
    split; [|discriminate]. intros _. rewrite lookup_insert_eq. reflexivity.
Qed.
End CopyOnWriteFacts.

(** ** [Foo]: the text it keeps *)

Lemma c_str_app (pre rest : list ascii) :
  NUL ∉ pre -> c_str (pre ++ NUL :: rest) = Some pre.
Proof.
  induction pre as [|c pre IH]; intros Hn; cbn [c_str app].
  - destruct (decide (NUL = NUL)) as [_|Hne]; [reflexivity | contradiction].
  - apply not_elem_of_cons in Hn. destruct Hn as [Hc Hpre].
    destruct (decide (c = NUL)) as [Heq|_]; [subst c; contradiction|].
    rewrite (IH Hpre). reflexivity.
Qed.

(** X16: a [Foo] constructed on a buffer of at least [len > 0] characters,
    with a counter in the range of [int] and below [INT_MAX], keeps the
    longest prefix of [text] that fits with its terminator: [text()] reads
    the first [len - 1] characters of [text] (all of it when it is shorter),
    nothing is written past the first [len] characters of the buffer, and
    the counter goes up by one, which the destructor takes back.  At
    [INT_MAX] the increment overflows and the constructor has no result. *)
Theorem Foo_keeps_prefix (buf text : list ascii) (len : nat) (counter : Z) :
  (0 < len)%nat ->
  (len <= length buf)%nat ->
  NUL ∉ text ->
  INT_MIN <= counter < INT_MAX ->
  (exists buf' : list ascii,
      Foo_ctor buf len counter text = Some (buf', counter + 1)
      /\ c_str buf' = Some (take (len - 1) text)
      /\ length buf' = length buf
      /\ drop len buf' = drop len buf
      /\ Foo_dtor (counter + 1) = Some counter)
  /\ Foo_ctor buf len INT_MAX text = None.
Proof.
  intros Hlen Hbuf Hnul Hrange. destruct len as [|k]; [lia|]. clear Hlen.
  unfold Foo_ctor, strncpy. rewrite decide_True by exact Hbuf. cbn [mbind option_bind].
  split; [|unfold int_incr; rewrite decide_False by lia; reflexivity].
  unfold int_incr. rewrite decide_True by exact Hrange. cbn [mbind option_bind].
  eexists. split; [reflexivity|].
  replace (S k - 1)%nat with k by lia.
  assert (Hpre : NUL ∉ take k text).
  { intros Hin. apply Hnul. rewrite <- (take_drop k text).
    apply elem_of_app. left. exact Hin. }
  split; [|split; [|split]].
  - destruct (decide (k < length text)%nat) as [Hlt|Hge].
    + (* the text is cut *)
      replace (S k - length text)%nat with 0%nat by lia. simpl replicate. simpl app.
      rewrite (take_S_r text k (default NUL (text !! k))).
      2:{ destruct (text !! k) eqn:Hk; [reflexivity|]. apply lookup_ge_None in Hk. lia. }
      rewrite <- app_assoc. simpl app.
      rewrite insert_app_r_alt by (rewrite length_take; lia).
      replace (k - length (take k text))%nat with 0%nat by (rewrite length_take; lia).
      simpl. apply c_str_app. exact Hpre.
    + (* the text fits *)
      rewrite !take_ge by lia.
      replace (S k - length text)%nat with (S (k - length text)) by lia.
      simpl replicate. simpl app.
      rewrite insert_app_r_alt by lia.
      destruct (k - length text)%nat as [|j] eqn:Hj.
      * simpl. apply c_str_app. exact Hnul.
      * simpl. apply c_str_app. exact Hnul.
  - rewrite length_insert, !length_app, length_take, length_replicate, length_drop. lia.
  - rewrite drop_insert_lt by lia.
    rewrite app_assoc, drop_app_length'; [reflexivity|].
    rewrite length_app, length_take, length_replicate. lia.
  - unfold Foo_dtor, int_decr. rewrite decide_True by lia. f_equal. lia.
Qed.

(** ** Instances of the further properties *)

Lemma Collect_twice_returns_default_witness :
  exists (rcu : @ReverseRcu Z) (os : list Outcome),
    run 0 Z.add (ReverseRcu_new 0) (two_sessions_destroyed ++ [NewLocal 2%positive] ++ session 2 4)
    = Some (rcu, os)
    /\ fst (Collect 0 Z.add rcu) = 4
    /\ fst (Collect 0 Z.add (snd (Collect 0 Z.add rcu))) = 0.
Proof.
  destruct (run 0 Z.add (ReverseRcu_new 0)
              (two_sessions_destroyed ++ [NewLocal 2%positive] ++ session 2 4))
    as [[rcu os]|] eqn:Hrun; [|vm_compute in Hrun; discriminate Hrun].
  exists rcu, os. split; [reflexivity|]. split.
  - vm_compute in Hrun. injection Hrun as <- _. vm_compute. reflexivity.
  - apply (Collect_twice_returns_default 0 Z.add _ rcu os eq_refl Hrun).
Defined.

Lemma Collect_leaves_sessions_alone_witness :
  exists (rcu : @ReverseRcu Z) (os : list Outcome) (l l' : @Local Z),
    run 0 Z.add (ReverseRcu_new 0)
      [NewLocal 1%positive; OpenSession 1%positive; AddTo 1%positive 5] = Some (rcu, os)
    /\ threads_ rcu !! 1%positive = Some l
    /\ Snapshot_deref l = 5
    /\ threads_ (snd (Collect 0 Z.add rcu)) !! 1%positive = Some l'
    /\ snapshot_depth_ l' = snapshot_depth_ l
    /\ Snapshot_ref l' = Snapshot_ref l
    /\ Snapshot_deref l' = Snapshot_deref l.
Proof.
  destruct (run 0 Z.add (ReverseRcu_new 0)
              [NewLocal 1%positive; OpenSession 1%positive; AddTo 1%positive 5])
    as [[rcu os]|] eqn:Hrun; [|vm_compute in Hrun; discriminate Hrun].
  destruct (threads_ rcu !! 1%positive) as [l|] eqn:Hl.
  - destruct (Collect_leaves_sessions_alone 0 Z.add _ rcu os 1%positive l Hrun Hl)
      as (_ & l' & H1 & H2 & H3 & H4).
    exists rcu, os, l, l'. repeat split; try assumption.
    vm_compute in Hrun. injection Hrun as <- _. vm_compute in Hl. injection Hl as <-.
    reflexivity.
  - exfalso. vm_compute in Hrun. injection Hrun as <- _. vm_compute in Hl. discriminate Hl.
Defined.

Lemma registered_while_alive_witness :
  exists (rcu : @ReverseRcu Z) (os : list Outcome),
    run 0 Z.add (ReverseRcu_new 0) (NewLocal 3%positive :: two_handles) = Some (rcu, os)
    /\ dom (threads_ rcu) = {[3%positive]}.
Proof.
  destruct (run 0 Z.add (ReverseRcu_new 0) (NewLocal 3%positive :: two_handles))
    as [[rcu os]|] eqn:Hrun; [|vm_compute in Hrun; discriminate Hrun].
  exists rcu, os. split; [reflexivity|].
  rewrite (registered_while_alive 0 Z.add _ _ _ _ Hrun). vm_compute. reflexivity.
Defined.

Lemma session_after_collect_is_delivered_witness :
  fst (Local_Collect 0
         (write_session Z.add (snd (Local_Collect 0 (th_local after_two_sessions))) [1; 2]))
  = 10.
Proof.
  destruct (session_after_collect_is_delivered 0 Z.add (th_local after_two_sessions) [1; 2])
    as [H _].
  - split; vm_compute; reflexivity.
  - vm_compute. reflexivity.
  - rewrite H. vm_compute. reflexivity.
Defined.

Lemma session_without_collect_stays_witness :
  let l := write_session Z.add (Local_init 0) [5] in
  relay (local_rcu_ l) = Free
  /\ Snapshot_deref (write_session Z.add l [7]) = 7
  /\ fst (Local_Collect 0 (write_session Z.add l [7])) = 5
  /\ Snapshot_deref (write_session Z.add (write_session Z.add l [7]) [1]) = 8.
Proof.
  cbv zeta.
  destruct (session_without_collect_stays 0 Z.add (write_session Z.add (Local_init 0) [5])
              [7] [1])
    as (_ & H2 & H3 & H4); try (vm_compute; reflexivity).
  split; [vm_compute; reflexivity|].
  split; [rewrite H2; vm_compute; reflexivity|].
  split; [rewrite H3; vm_compute; reflexivity|].
  rewrite H4. vm_compute. reflexivity.
Defined.

Lemma Collect_any_order_witness :
  exists (rcu : @ReverseRcu Z) (os : list Outcome),
    run 0 Z.add (ReverseRcu_new 0)
      ([NewLocal 1%positive; NewLocal 2%positive] ++ session 1 3 ++ session 2 4)
    = Some (rcu, os)
    /\ fold_left (fun acc kv => acc + fst (Local_Collect 0 kv.2))
         (reverse (map_to_list (threads_ rcu))) (value_ rcu)
       = fst (Collect 0 Z.add rcu).
Proof.
  destruct (run 0 Z.add (ReverseRcu_new 0)
              ([NewLocal 1%positive; NewLocal 2%positive] ++ session 1 3 ++ session 2 4))
    as [[rcu os]|] eqn:Hrun; [|vm_compute in Hrun; discriminate Hrun].
  exists rcu, os. split; [reflexivity|].
  apply (Collect_any_order 0 Z.add Z_add_assoc' Z.add_comm Z.add_0_r).
  apply reverse_Permutation.
Defined.

Lemma destroyed_handle_still_counted_witness :
  exists (rcu rcu' : @ReverseRcu Z) (os : list Outcome) (o : Outcome),
    run 0 Z.add (ReverseRcu_new 0)
      ([NewLocal 1%positive; NewLocal 2%positive] ++ session 1 3 ++ session 2 4)
    = Some (rcu, os)
    /\ step 0 Z.add rcu (DeleteLocal 1%positive) = Some (rcu', o)
    /\ fst (Collect 0 Z.add rcu) = 7
    /\ fst (Collect 0 Z.add rcu') = fst (Collect 0 Z.add rcu).
Proof.
  destruct (run 0 Z.add (ReverseRcu_new 0)
              ([NewLocal 1%positive; NewLocal 2%positive] ++ session 1 3 ++ session 2 4))
    as [[rcu os]|] eqn:Hrun; [|vm_compute in Hrun; discriminate Hrun].
  destruct (step 0 Z.add rcu (DeleteLocal 1%positive)) as [[rcu' o]|] eqn:Hstep.
  - exists rcu, rcu', os, o. split; [reflexivity|]. split; [exact Hstep|]. split.
    + vm_compute in Hrun. injection Hrun as <- _. vm_compute. reflexivity.
    + apply (destroyed_handle_still_counted 0 Z.add Z_add_assoc' Z.add_comm Z.add_0_r
               rcu rcu' 1%positive o Hstep).
  - exfalso. vm_compute in Hrun. injection Hrun as <- _. vm_compute in Hstep.
    discriminate Hstep.
Defined.

Lemma construct_destroy_round_trip_witness :
  run 0 Z.add (ReverseRcu_new 0) [NewLocal 1%positive; DeleteLocal 1%positive]
  = Some (ReverseRcu_new 0, [Silent; LeftBehind 0]).
Proof.
  apply (construct_destroy_round_trip 0 Z.add Z.add_0_r (ReverseRcu_new 0) 1%positive).
  vm_compute. reflexivity.
Defined.

Lemma AllocatedUnits_enough_witness :
  AllocatedUnits 64 24 1 0 = 23 /\ AllocatedUnits 64 24 8 16 = 18.
Proof.
  split.
  - destruct (AllocatedUnits_enough 64 24 1 0) as [H _]; try lia. rewrite H. reflexivity.
  - destruct (AllocatedUnits_enough 64 24 8 16) as [H _]; try lia. rewrite H. reflexivity.
Defined.

Lemma MakeUnique_Deleter_round_trip_witness :
  MakeUnique 64 24 1 0 4096 16 ∅ = Some ((4096, 16), {[4096 := 39]})
  /\ Deleter_call 64 24 1 0 16 4096 {[4096 := 39]} = Some ∅.
Proof.
  assert (H : MakeUnique 64 24 1 0 4096 16 ∅ = Some ((4096, 16), {[4096 := 39]}))
    by (vm_compute; reflexivity).
  split; [exact H|].
  destruct (MakeUnique_Deleter_round_trip 64 24 1 0 4096 16 4096 16 ∅ {[4096 := 39]} H)
    as (_ & _ & _ & Hd).
  exact Hd.
Defined.

Lemma Placement_move_frees_once_witness :
  Placement_alloc 64 24 1 4096 16 ∅ = Some (mkPlacement 16 4096, {[4096 := 39]})
  /\ Placement_dtor 64 24 1 (snd (Placement_move (mkPlacement 16 4096))) {[4096 := 39]}
     = Some {[4096 := 39]}
  /\ Placement_dtor 64 24 1 (fst (Placement_move (mkPlacement 16 4096))) {[4096 := 39]}
     = Some ∅.
Proof.
  assert (H : Placement_alloc 64 24 1 4096 16 ∅ = Some (mkPlacement 16 4096, {[4096 := 39]}))
    by (vm_compute; reflexivity).
  split; [exact H|].
  pose proof (Placement_move_frees_once 64 24 1 4096 16 (mkPlacement 16 4096) ∅
                {[4096 := 39]} H) as Hm.
  simpl in Hm. destruct Hm as (H1 & H2 & _). split; [exact H1 | exact H2].
Defined.

Lemma as_mutable_copies_when_shared_witness :
  let Dec := fun n : nat => (Nat.eqb n 1, pred n) in
  let IsOne := fun n : nat => Nat.eqb n 1 in
  let unique : gmap positive (Refcounted Z nat) := {[1%positive := mkRefcounted 1%nat 7]} in
  let shared : gmap positive (Refcounted Z nat) := {[1%positive := mkRefcounted 2%nat 7]} in
  as_mutable 1%nat Dec IsOne 2%positive (Some 1%positive) unique
  = Some (Some 1%positive, unique)
  /\ exists heap1 heap2 : gmap positive (Refcounted Z nat),
       as_mutable 1%nat Dec IsOne 2%positive (Some 1%positive) shared
       = Some (Some 2%positive, heap1)
       /\ store_nested (Some 2%positive) 9 heap1 = Some heap2
       /\ CopyOnWrite_deref (Some 2%positive) heap2 = Some 9
       /\ CopyOnWrite_deref (Some 1%positive) heap2 = Some 7.
Proof.
  intros Dec IsOne unique shared.
  assert (Hu : unique !! 1%positive = Some (mkRefcounted 1%nat 7))
    by (vm_compute; reflexivity).
  assert (Hs : shared !! 1%positive = Some (mkRefcounted 2%nat 7))
    by (vm_compute; reflexivity).
  assert (Hq : shared !! 2%positive = None) by (vm_compute; reflexivity).
  split.
  - apply (proj1 (as_mutable_copies_when_shared nat 1%nat Dec IsOne
                    2%positive 1%positive (mkRefcounted 1%nat 7) unique 9 Hu)).
    reflexivity.
  - destruct (proj2 (as_mutable_copies_when_shared nat 1%nat Dec IsOne
                       2%positive 1%positive (mkRefcounted 2%nat 7) shared 9 Hs)
                eq_refl Hq)
      as (heap1 & heap2 & H1 & _ & H3 & H4 & H5).
    exists heap1, heap2. repeat split; try assumption.
    apply H5. vm_compute. reflexivity.
Defined.

Lemma CopyOnWrite_never_frees_witness :
  let Dec := fun n : nat => (Nat.eqb n 1, pred n) in
  let IsOne := fun n : nat => Nat.eqb n 1 in
  let heap : gmap positive (Refcounted Z nat) := {[1%positive := mkRefcounted 1%nat 5]} in
  exists heap' : gmap positive (Refcounted Z nat),
    cow_run 1%nat S Dec IsOne heap
      [CowCopy (Some 1%positive); CowAssign 2%positive (Some 1%positive) 9;
       CowDestroy (Some 2%positive); CowDestroy (Some 1%positive)]
    = Some heap'
    /\ is_Some (heap' !! 1%positive)
    /\ is_Some (heap' !! 2%positive).
Proof.
  intros Dec IsOne heap.
  destruct (cow_run 1%nat S Dec IsOne heap
              [CowCopy (Some 1%positive); CowAssign 2%positive (Some 1%positive) 9;
               CowDestroy (Some 2%positive); CowDestroy (Some 1%positive)])
    as [heap'|] eqn:Hrun; [|vm_compute in Hrun; discriminate Hrun].
  exists heap'. split; [reflexivity|]. split.
  - apply (proj1 (CopyOnWrite_never_frees nat 1%nat S Dec IsOne _ heap heap' 1%positive
                    Hrun ltac:(eexists; vm_compute; reflexivity))).
  - vm_compute in Hrun. injection Hrun as <-. eexists. vm_compute. reflexivity.
Defined.

Lemma move_assign_releases_the_source_witness :
  let Dec := fun n : nat => (Nat.eqb n 1, pred n) in
  let heap : gmap positive (Refcounted Z nat) :=
    {[1%positive := mkRefcounted 1%nat 5; 2%positive := mkRefcounted 1%nat 7]} in
  exists heap' : gmap positive (Refcounted Z nat),
    CopyOnWrite_move_assign Dec (Some 1%positive) (Some 2%positive) heap
    = Some (Some 2%positive, None, heap')
    /\ heap' !! 1%positive = Some (mkRefcounted 1%nat 5)
    /\ CopyOnWrite_deref (Some 2%positive) heap' = None.
Proof.
  intros Dec heap.
  assert (H2 : heap !! 2%positive = Some (mkRefcounted 1%nat 7))
    by (vm_compute; reflexivity).
  destruct (move_assign_releases_the_source nat Dec (Some 1%positive) 2%positive
              (mkRefcounted 1%nat 7) heap H2)
    as (heap' & Hm & Hother & _ & Hdangling).
  exists heap'. split; [exact Hm|]. split.
  - rewrite Hother by discriminate. vm_compute. reflexivity.
  - apply Hdangling. reflexivity.
Defined.

Lemma Foo_keeps_prefix_witness :
  exists buf' : list ascii,
    Foo_ctor (replicate 16 NUL) 16 0
      (String.list_ascii_of_string "Lorem ipsum dolor sit amet") = Some (buf', 1)
    /\ c_str buf' = Some (String.list_ascii_of_string "Lorem ipsum dol")
    /\ Foo_dtor 1 = Some 0.
Proof.
  destruct (Foo_keeps_prefix (replicate 16 NUL)
              (String.list_ascii_of_string "Lorem ipsum dolor sit amet") 16 0)
    as ((buf' & H1 & H2 & _ & _ & H5) & _).
  - lia.
  - vm_compute. lia.
  - apply (bool_decide_unpack _). vm_compute. exact I.
  - unfold INT_MIN, INT_MAX. lia.
  - exists buf'. split; [exact H1|]. split; [|exact H5]. rewrite H2. vm_compute. reflexivity.
Defined.
